(** * TISTA: trainable ISTA for sparse signal recovery (tista.py)

    A shallow embedding of [tista.py].  The program is written once, over an
    abstract scalar type with the arithmetic the tensor library provides
    ([Scalar]), and read at two instances:

    - [RScalar]: exact real arithmetic, for the algebraic statements;
    - [F32Scalar]: IEEE 754 binary32 (torch's default tensor type), with NaN,
      infinities and signed zeros, for the statements about NaN.

    Tensors are row-major lists of rows.  The model is stated for tensors of
    the shapes the program builds ([batch_size] x [N], [batch_size] x [M]);
    on lists of other shapes the list operations truncate, where torch
    raises a size mismatch.  Indexing [gamma] out of range is modelled as the
    exception it is. *)

From Stdlib Require Import List ZArith Bool Lia Reals Lra.
From Stdlib Require Import Floats.SpecFloat.
Import ListNotations.

Set Implicit Arguments.

(** ** Scalars *)

Class Scalar (T : Type) : Type := {
  sadd : T -> T -> T;
  ssub : T -> T -> T;
  smul : T -> T -> T;
  sdiv : T -> T -> T;
  sneg : T -> T;
  sexp : T -> T;          (* torch.exp *)
  slog : T -> T;          (* torch.log, math.log *)
  ssqrt : T -> T;         (* square root inside norm(2, 1), math.sqrt *)
  spow : T -> T -> T;     (* math.pow *)
  sneb : T -> T -> bool;  (* the comparison [!=] *)
  sltb : T -> T -> bool;  (* the comparison [<] *)
  of_Z : Z -> T;          (* an integer constant used as a number *)
  lit : Z -> positive -> T (* the decimal literal num/den *)
}.

Declare Scope scalar_scope.
Delimit Scope scalar_scope with S.
Infix "+" := sadd : scalar_scope.
Infix "-" := ssub : scalar_scope.
Infix "*" := smul : scalar_scope.
Infix "/" := sdiv : scalar_scope.
Notation "- x" := (sneg x) : scalar_scope.

Definition of_nat {T} `{Scalar T} (n : nat) : T := of_Z (Z.of_nat n).

(** *** Exact reals *)

#[export] Instance RScalar : Scalar R := {
  sadd := Rplus;
  ssub := Rminus;
  smul := Rmult;
  sdiv := Rdiv;
  sneg := Ropp;
  sexp := exp;
  slog := ln;
  ssqrt := sqrt;
  spow := Rpower;
  sneb := fun x y => if Req_dec_T x y then false else true;
  sltb := fun x y => if Rlt_dec x y then true else false;
  of_Z := IZR;
  lit := fun n d => (IZR n / IZR (Zpos d))%R
}.

(** *** Reals with checked domains

    The same arithmetic, where an operation applied outside its domain
    (division by zero, root of a negative number, logarithm or power of a
    number that is not positive) has no value. *)

Definition lift1 (f : R -> R) (x : option R) : option R :=
  match x with Some a => Some (f a) | None => None end.

Definition lift2 (f : R -> R -> R) (x y : option R) : option R :=
  match x, y with Some a, Some b => Some (f a b) | _, _ => None end.

Definition guard (ok : bool) (x : option R) : option R :=
  if ok then x else None.

Definition nonzero (y : option R) : bool :=
  match y with Some b => if Req_dec_T b 0 then false else true | None => false end.

Definition nonneg (y : option R) : bool :=
  match y with Some b => if Rle_dec 0 b then true else false | None => false end.

Definition positive_r (y : option R) : bool :=
  match y with Some b => if Rlt_dec 0 b then true else false | None => false end.

Definition CheckedR : Scalar (option R) := {|
  sadd := lift2 Rplus;
  ssub := lift2 Rminus;
  smul := lift2 Rmult;
  sdiv := fun x y => guard (nonzero y) (lift2 Rdiv x y);
  sneg := lift1 Ropp;
  sexp := lift1 exp;
  slog := fun x => guard (positive_r x) (lift1 ln x);
  ssqrt := fun x => guard (nonneg x) (lift1 sqrt x);
  spow := fun x y => guard (positive_r x) (lift2 Rpower x y);
  sneb := fun x y =>
    match x, y with
    | Some a, Some b => if Req_dec_T a b then false else true
    | _, _ => true
    end;
  sltb := fun x y =>
    match x, y with
    | Some a, Some b => if Rlt_dec a b then true else false
    | _, _ => false
    end;
  of_Z := fun z => Some (IZR z);
  lit := fun n d => Some (IZR n / IZR (Zpos d))%R
|}.

(** *** binary32

    Arithmetic is [SpecFloat] at precision 24 and maximal exponent 128,
    rounding to nearest even.  The transcendental functions belong to the
    tensor library; they are taken as given ([Libm]). *)

Module F32.

Definition prec : Z := 24.
Definition emax : Z := 128.

Definition float32 : Type := spec_float.

Definition add : float32 -> float32 -> float32 := SFadd prec emax.
Definition sub : float32 -> float32 -> float32 := SFsub prec emax.
Definition mul : float32 -> float32 -> float32 := SFmul prec emax.
Definition div : float32 -> float32 -> float32 := SFdiv prec emax.
Definition sqrt : float32 -> float32 := SFsqrt prec emax.
Definition neb (x y : float32) : bool := negb (SFeqb x y).
Definition ltb : float32 -> float32 -> bool := SFltb.
Definition leb : float32 -> float32 -> bool := SFleb.
Definition of_int (z : Z) : float32 := binary_normalize prec emax z 0 false.
Definition of_frac (n : Z) (d : positive) : float32 :=
  div (of_int n) (of_int (Zpos d)).

Definition nan : float32 := S754_nan.
Definition pzero : float32 := S754_zero false.
Definition one : float32 := of_int 1.

Definition is_nan (x : float32) : bool :=
  match x with S754_nan => true | _ => false end.
Definition is_zero (x : float32) : bool :=
  match x with S754_zero _ => true | _ => false end.
Definition is_finite (x : float32) : bool :=
  match x with S754_zero _ | S754_finite _ _ _ => true | _ => false end.

Record Libm : Type := {
  fexp : float32 -> float32;
  flog : float32 -> float32;
  fpow : float32 -> float32 -> float32
}.

(** The part of a binary32 exponential that does not depend on how the
    library rounds: its values at zero, NaN and the infinities, and on the
    two saturated tails (e^-104 < 2^-150 rounds to +0, e^89 > 2^128
    overflows).  The examples below only evaluate it there. *)
Definition exp_tails (x : float32) : float32 :=
  match x with
  | S754_nan => S754_nan
  | S754_zero _ => one
  | S754_infinity true => pzero
  | S754_infinity false => x
  | S754_finite _ _ _ =>
      if leb x (of_int (-104)) then pzero
      else if leb (of_int 89) x then S754_infinity false
      else S754_nan
  end.

(** Likewise for the logarithm and the power: only the special values. *)
Definition log_special (x : float32) : float32 :=
  match x with
  | S754_zero _ => S754_infinity true
  | S754_infinity false => x
  | S754_finite false 8388608 (-23) => pzero
  | _ => S754_nan
  end.

Definition pow_special (x y : float32) : float32 :=
  match y with
  | S754_zero _ => one
  | _ => S754_nan
  end.

Definition tails : Libm :=
  {| fexp := exp_tails; flog := log_special; fpow := pow_special |}.

End F32.

Definition F32Scalar (L : F32.Libm) : Scalar F32.float32 := {|
  sadd := F32.add;
  ssub := F32.sub;
  smul := F32.mul;
  sdiv := F32.div;
  sneg := SFopp;
  sexp := F32.fexp L;
  slog := F32.flog L;
  ssqrt := F32.sqrt;
  spow := F32.fpow L;
  sneb := F32.neb;
  sltb := F32.ltb;
  of_Z := F32.of_int;
  lit := F32.of_frac
|}.

(** ** Tensors *)

Definition vec (T : Type) : Type := list T.
Definition tensor (T : Type) : Type := list (list T).

Section Tensors.
Context {T : Type} `{Scalar T}.
Local Open Scope scalar_scope.

Fixpoint map2 {A B C} (f : A -> B -> C) (l : list A) (l' : list B) : list C :=
  match l, l' with
  | a :: l, b :: l' => f a b :: map2 f l l'
  | _, _ => []
  end.

Definition tmap (f : T -> T) (a : tensor T) : tensor T := map (map f) a.
Definition tmap2 (f : T -> T -> T) (a b : tensor T) : tensor T :=
  map2 (map2 f) a b.

Definition zero : T := of_Z 0.

(** Sum of a list, accumulating from the left as a reduction loop does. *)
Definition vsum (v : vec T) : T := fold_left sadd v zero.

Definition tadd : tensor T -> tensor T -> tensor T := tmap2 sadd.
Definition tsub : tensor T -> tensor T -> tensor T := tmap2 ssub.
Definition tscale (a : tensor T) (c : T) : tensor T := tmap (fun x => x * c) a.

(** [a.t()] for a tensor with [ncols] columns. *)
Definition transpose (ncols : nat) (a : tensor T) : tensor T :=
  fold_right (map2 cons) (repeat [] ncols) a.

Definition ncols (a : tensor T) : nat :=
  match a with r :: _ => length r | [] => 0 end.

Definition dot (u v : vec T) : T := vsum (map2 smul u v).

(** [a.mm(b)]: entry (i, j) is the product of row i of [a] and column j of
    [b]. *)
Definition mm (a b : tensor T) : tensor T :=
  let bt := transpose (ncols b) b in
  map (fun row => map (dot row) bt) a.

(** [a.norm(2, 1)]: the Euclidean norm of each row. *)
Definition norm2_rows (a : tensor T) : vec T :=
  map (fun row => ssqrt (vsum (map (fun x => x * x) row))) a.

(** [v.pow(2.0)]. *)
Definition pow2 (v : vec T) : vec T := map (fun x => x * x) v.

(** [v.expand(n, len v)]: [n] rows, each equal to [v]. *)
Definition expand (n : nat) (v : vec T) : tensor T := repeat v n.

(** [v.clamp(min=m)]: a new tensor; [v] itself is left as it is. *)
Definition clamp_min (m : T) (v : vec T) : vec T :=
  map (fun x => if sltb x m then m else x) v.

Definition zeros (rows cols : nat) : tensor T := repeat (repeat zero cols) rows.

End Tensors.

(** ** Exceptions and loops *)

Inductive exn : Type :=
  | IndexError (i : nat).   (* [gamma[i]] with [i] out of range *)

Inductive result (A : Type) : Type :=
  | Ok (a : A)
  | Raise (e : exn).
Arguments Ok {A} a.
Arguments Raise {A} e.

Definition bind {A B} (r : result A) (k : A -> result B) : result B :=
  match r with
  | Ok a => k a
  | Raise e => Raise e
  end.

Notation "x <- c ;; k" := (bind c (fun x => k))
  (at level 61, c at next level, right associativity).

(** [for i in range(start, start + n): s = body i s]; an exception raised by
    the body leaves the loop at once. *)
Fixpoint for_range {S} (start n : nat) (body : nat -> S -> result S) (s : S)
  : result S :=
  match n with
  | O => Ok s
  | Datatypes.S n' => s' <- body start s ;; for_range (Datatypes.S start) n' body s'
  end.

(** ** The program *)

Section Program.
Context {T : Type} `{Scalar T}.
Local Open Scope scalar_scope.

(** Module-level constants (lines 22-42).  The sensing matrix is drawn at
    random when the module is loaded; [At], [Wt], [taa] and [tww] are what
    the module computes from it. *)
Record Globals : Type := {
  N : nat;
  M : nat;
  p : T;
  batch_size : nat;
  num_batch : nat;
  num_generations : nat;
  snr : T;
  alpha2 : T;
  max_layers : nat;
  adam_lr : T;
  At : tensor T;
  Wt : tensor T;
  taa : T;
  tww : T
}.

(** The constants as the source sets them. *)
Definition tista_globals (At Wt : tensor T) (taa tww : T) : Globals := {|
  N := 500;
  M := 250;
  p := lit 1 10;
  batch_size := 100;
  num_batch := 200;
  num_generations := 15;
  snr := of_Z 40;
  alpha2 := of_Z 1;
  max_layers := 20;
  adam_lr := lit 4 100;
  At := At;
  Wt := Wt;
  taa := taa;
  tww := tww
|}.

(** [global sigma_std, sigma2, xi], assigned once by [main]. *)
Record Calib : Type := {
  sigma2 : T;
  sigma_std : T;
  xi : T
}.

Variable G : Globals.

(** detection for NaN *)
Definition isnan (x : T) : bool := sneb x x.

Section Network.
Variable C : Calib.
Variable gamma : vec T.

Definition gauss (x var : T) : T :=
  sexp (- (x * x) / (of_Z 2 * var)).

(** The function acts coordinate by coordinate; this is one coordinate. *)
Definition MMSE_shrinkage (y tau2 : T) : T :=
  (y * alpha2 G / xi C) * p G * gauss y (xi C)
  / ((of_Z 1 - p G) * gauss y tau2 + p G * gauss y (xi C)).

Definition index (i : nat) : result T :=
  match nth_error gamma i with
  | Some g => Ok g
  | None => Raise (IndexError i)
  end.

(** [v2.clamp(min=1e-7)] is evaluated as a statement: it builds a clamped
    tensor and drops it. *)
Definition eval_tau2 (t : tensor T) (i : nat) : result (tensor T) :=
  let v2 :=
    map (fun n2 => (n2 - of_nat (M G) * sigma2 C) / taa G)
        (pow2 (norm2_rows t)) in
  let _ := clamp_min (lit 1 10000000) v2 in
  g <- index i ;;
  let tau2 :=
    map (fun v =>
           (v / of_nat (N G))
           * (of_nat (N G) + (g * g - of_Z 2 * g) * of_nat (M G))
           + g * g * tww G * sigma2 C / of_nat (N G)) v2 in
  Ok (transpose (batch_size G) (expand (N G) tau2)).

(** One pass of the loop body of [forward]. *)
Definition layer (y : tensor T) (i : nat) (s : tensor T) : result (tensor T) :=
  let t := tsub y (mm s (At G)) in
  tau2 <- eval_tau2 t i ;;
  g <- index i ;;
  let r := tadd s (tscale (mm t (Wt G)) g) in
  Ok (tmap2 MMSE_shrinkage r tau2).

(** [noise] is the draw [torch.normal(0.0, sigma_std*ones(batch_size, M))]
    of this call. *)
Definition forward (x s noise : tensor T) (max_itr : nat) : result (tensor T) :=
  let y := tadd (mm x (At G)) noise in
  for_range 0 max_itr (layer y) s.

End Network.

(** [F.mse_loss]: the mean of the squared differences. *)
Definition mse_loss (a b : tensor T) : T :=
  let d := concat (tmap2 (fun u v => (u - v) * (u - v)) a b) in
  vsum d / of_nat (length d).

(** What the program takes from outside: the random draws, automatic
    differentiation and the optimizer.  [torch.manual_seed(1)] separates the
    draws of the SNR loop from those of the training loop, hence the two
    sequences of batches.  The wall-clock report is left out. *)
Record Env : Type := {
  gamma_init : vec T;  (* torch.normal(1.0, 0.1*torch.ones(max_layers)) *)
  generate_batch_snr : nat -> tensor T;
                       (* i-th generate_batch() of the SNR loop *)
  generate_batch : nat -> tensor T;
                       (* k-th generate_batch() after manual_seed(1) *)
  noise : nat -> tensor T;
                       (* noise draw of the k-th forward pass *)
  autograd : (vec T -> result T) -> vec T -> vec T;
                       (* gradient of a loss at the parameters *)
  opt_state : Type;
  opt_init : opt_state;
  opt_step : opt_state -> vec T -> vec T -> opt_state * vec T
                       (* Adam: state, parameters, gradient *)
}.

Variable E : Env.

(** SNR calculation (lines 94-103). *)
Definition energy (y : tensor T) : T := vsum (pow2 (norm2_rows y)).

Definition calib_sum : T :=
  fold_left (fun sum i => sum + energy (mm (generate_batch_snr E i) (At G)))
            (seq 0 100) zero.

Definition calibrate : Calib :=
  let ave := calib_sum / (of_Z 100 * of_nat (batch_size G)) in
  let sigma2 := ave / (of_nat (M G) * spow (of_Z 10) (snr G / of_Z 10)) in
  let sigma_std := ssqrt sigma2 in
  {| sigma2 := sigma2; sigma_std := sigma_std; xi := alpha2 G + sigma2 |}.

(** The training loop (lines 105-132). *)
Inductive phase : Type := Train | Eval.

Record call : Type := {
  call_gen : nat;        (* value of [gen] at the call *)
  call_phase : phase;
  call_itr : nat         (* third argument of [network(x, s_zero, ...)] *)
}.

Record state : Type := {
  gamma : vec T;                (* network.gamma *)
  opt : opt_state E;            (* Adam's moments *)
  draws : nat;                  (* batches drawn since manual_seed(1) *)
  calls : list call;            (* forward passes so far, oldest first *)
  printed : list (nat * T)      (* NMSE lines printed so far *)
}.

Variable C : Calib.

Definition s_zero : tensor T := zeros (batch_size G) (N G).

(** [network(x, s_zero, max_itr)] on a fresh batch.  The pass is recorded in
    [calls] with the [max_itr] that [forward] was run with. *)
Definition run_network (ph : phase) (gen max_itr : nat) (st : state)
  : result (tensor T * tensor T * state) :=
  let k := draws st in
  let x := generate_batch E k in
  x_hat <- forward C (gamma st) x s_zero (noise E k) max_itr ;;
  Ok (x, x_hat,
      {| gamma := gamma st; opt := opt st; draws := Datatypes.S k;
         calls := calls st ++ [{| call_gen := gen; call_phase := ph;
                                  call_itr := max_itr |}];
         printed := printed st |}).

(** [network(x, s_zero, gen+1)], as both loops call it. *)
Definition network (ph : phase) (gen : nat) (st : state)
  : result (tensor T * tensor T * state) :=
  run_network ph gen (gen + 1)%nat st.

(** Gradient of the loss of this mini-batch with respect to [gamma]. *)
Definition loss_grad (gen : nat) (st : state) : vec T :=
  let k := draws st in
  autograd E
    (fun g =>
       x_hat <- forward C g (generate_batch E k) s_zero (noise E k)
                  (gen + 1)%nat ;;
       Ok (mse_loss x_hat (generate_batch E k)))
    (gamma st).

(** One mini-batch (lines 110-120). *)
Definition train_batch (gen : nat) (_ : nat) (st : state) : result state :=
  r <- network Train gen st ;;
  let '(_, _, st1) := r in
  let grad := loss_grad gen st in   (* loss.backward() *)
  let grads := [grad] in   (* torch.stack over the parameters: gamma only *)
  if existsb (existsb isnan) grads then Ok st1   (* continue *)
  else
    let '(o, g) := opt_step E (opt st1) (gamma st1) grad in
    Ok {| gamma := g; opt := o; draws := draws st1; calls := calls st1;
          printed := printed st1 |}.

(** One evaluation batch (lines 125-130): the state and [nmse_sum]. *)
Definition eval_batch (gen : nat) (_ : nat) (a : state * T)
  : result (state * T) :=
  let '(st, nmse_sum) := a in
  r <- network Eval gen st ;;
  let '(x, x_hat, st1) := r in
  let num := pow2 (norm2_rows (tsub x x_hat)) in
  let denom := pow2 (norm2_rows x) in
  let nmse :=
    map2 (fun n d => of_Z 10 * slog (n / d) / slog (of_Z 10)) num denom in
  Ok (st1, nmse_sum + vsum nmse).

Definition generation (gen : nat) (st : state) : result state :=
  st1 <- for_range 0 (num_batch G) (train_batch gen) st ;;
  a <- for_range 0 10 (eval_batch gen) (st1, zero) ;;
  let '(st2, nmse_sum) := a in
  Ok {| gamma := gamma st2; opt := opt st2; draws := draws st2;
        calls := calls st2;
        printed := printed st2
                   ++ [((gen + 1)%nat,
                        nmse_sum / (of_Z 10 * of_nat (batch_size G)))] |}.

Definition init_state : state :=
  {| gamma := gamma_init E; opt := opt_init E; draws := 0; calls := [];
     printed := [] |}.

Definition training : result state :=
  for_range 0 (num_generations G) generation init_state.

End Program.

Arguments Globals T : clear implicits.
Arguments Calib T : clear implicits.
Arguments Env T : clear implicits.

(** [main]: the SNR calculation, then the training loop under the values it
    assigned. *)
Definition main {T} `{Scalar T} (G : Globals T) (E : Env T) : result (state E) :=
  let C := calibrate G E in
  training G E C.

(** ** Reading the real-valued constants in the checked arithmetic *)

Definition checked_tensor (a : tensor R) : tensor (option R) :=
  map (map (@Some R)) a.

Definition checked_globals (G : Globals R) : Globals (option R) := {|
  N := N G;
  M := M G;
  p := Some (p G);
  batch_size := batch_size G;
  num_batch := num_batch G;
  num_generations := num_generations G;
  snr := Some (snr G);
  alpha2 := Some (alpha2 G);
  max_layers := max_layers G;
  adam_lr := Some (adam_lr G);
  At := checked_tensor (At G);
  Wt := checked_tensor (Wt G);
  taa := Some (taa G);
  tww := Some (tww G)
|}.

Definition checked_calib (C : Calib R) : Calib (option R) := {|
  sigma2 := Some (sigma2 C);
  sigma_std := Some (sigma_std C);
  xi := Some (xi C)
|}.

(** ** The variance estimator as the specification words it

    [v2] is clamped from below at 1e-7 and the clamped value enters the
    formula of [tau2]. *)

Definition error_variance_spec {T} `{Scalar T} (G : Globals T) (C : Calib T)
    (gamma : vec T) (t : tensor T) (i : nat) : result (tensor T) :=
  let v2 :=
    clamp_min (lit 1 10000000)
      (map (fun n2 => (n2 - of_nat (M G) * sigma2 C) / taa G)%S
           (pow2 (norm2_rows t))) in
  g <- index gamma i ;;
  let tau2 :=
    map (fun v =>
           (v / of_nat (N G))
           * (of_nat (N G) + (g * g - of_Z 2 * g) * of_nat (M G))
           + g * g * tww G * sigma2 C / of_nat (N G))%S v2 in
  Ok (transpose (batch_size G) (expand (N G) tau2)).

(** ** Concrete inputs *)

Module Inputs.

(** binary32, with the source's constants and a noise variance of 2e-5. *)
Definition S32 : Scalar F32.float32 := F32Scalar F32.tails.

Definition G32 : Globals F32.float32 :=
  tista_globals (H := S32) [] [] (F32.of_int 500) (F32.of_int 250).

Definition C32 : Calib F32.float32 :=
  let s2 := F32.of_frac 2 100000 in
  {| sigma2 := s2; sigma_std := F32.sqrt s2; xi := F32.add (alpha2 G32) s2 |}.

(** Reals, with the source's constants, [taa = 500], [tww = 250] and a noise
    variance of 2e-5.  The matrices are left empty: the statements made on
    these inputs do not evaluate a matrix product. *)
Definition GR : Globals R := tista_globals [] [] 500%R 250%R.

Definition CR : Calib R :=
  {| sigma2 := (2 / 100000)%R; sigma_std := sqrt (2 / 100000);
     xi := (1 + 2 / 100000)%R |}.

(** A residual of all zeros and gains of one half. *)
Definition t_zero : tensor R := zeros 100 250.
Definition gamma_half : vec R := repeat (1 / 2)%R 20.

End Inputs.

(** ** Reference quantities for the statements *)

(** Sums written as mathematical sums. *)
Definition sumR (l : list R) : R := fold_right Rplus 0%R l.

(** The squared Euclidean norm of a row. *)
Definition squared_norm (row : list R) : R := sumR (map (fun x => x * x)%R row).

(** Total squared energy of the noiseless measurements [x.mm(At)] over the
    rows of the 100 batches drawn by the SNR calculation. *)
Definition calibration_energy (G : Globals R) (E : Env R) : R :=
  sumR (map (fun i =>
               sumR (map squared_norm (mm (generate_batch_snr E i) (At G))))
            (seq 0 100)).

(** The forward passes of generation [gen]: [num_batch] training passes,
    then 10 evaluation passes, all with [gen + 1] layers. *)
Definition mk_call (gen : nat) (ph : phase) : call :=
  {| call_gen := gen; call_phase := ph; call_itr := gen + 1 |}.

Definition calls_of_generation {T} (G : Globals T) (gen : nat) : list call :=
  repeat (mk_call gen Train) (num_batch G) ++ repeat (mk_call gen Eval) 10.

Definition expected_calls {T} (G : Globals T) : list call :=
  flat_map (calls_of_generation G) (seq 0 (num_generations G)).

(** An environment for the examples, in binary32: batches and noise of
    zeros, a differentiation that returns NaN in every coordinate, and a
    plain gradient step for the optimizer. *)
Module Inputs32.
Import Inputs.

Fixpoint descend (g gr : vec F32.float32) : vec F32.float32 :=
  match g with
  | [] => []
  | x :: g' =>
      F32.sub x (F32.mul (adam_lr G32) (hd F32.pzero gr)) :: descend g' (tl gr)
  end.

Definition sgd_step (o : unit) (g gr : vec F32.float32)
  : unit * vec F32.float32 :=
  (o, descend g gr).

Definition E_nan : Env F32.float32 := {|
  gamma_init := repeat F32.one 20;
  generate_batch_snr := fun _ => zeros (H := S32) 100 500;
  generate_batch := fun _ => zeros (H := S32) 100 500;
  noise := fun _ => zeros (H := S32) 100 250;
  autograd := fun _ g => map (fun _ => F32.nan) g;
  opt_state := unit;
  opt_init := tt;
  opt_step := sgd_step
|}.

End Inputs32.

(** ** Module-level code outside the network *)

Section ModuleLevel.
Context {T : Type} `{Scalar T}.
Local Open Scope scalar_scope.

(** mini-batch generator (lines 52-55), as a function of its two draws:
    [support] is the draw of [torch.bernoulli(p * ones(batch_size, N))] and
    [nonzero] the draw of [torch.normal(0.0, alpha_std * ones(batch_size, N))]. *)
Definition generate_batch_from (support nonzero : tensor T) : tensor T :=
  tmap2 smul nonzero support.

(** [a.t()], the number of columns read off the first row. *)
Definition t_ (a : tensor T) : tensor T := transpose (ncols a) a.

(** [m.trace()]: the sum of the diagonal, which ends with the rows or with
    the columns, whichever come to an end first. *)
Fixpoint trace_from (k : nat) (m : tensor T) : T :=
  match m with
  | [] => zero
  | r :: m' =>
      match nth_error r k with
      | Some x => x + trace_from (S k) m'
      | None => zero
      end
  end.

Definition trace (m : tensor T) : T := trace_from 0 m.

(** Lines 37 and 41: [At = A.t()], [taa = (At.mm(A)).trace()]. *)
Definition taa_of (A : tensor T) : T := trace (mm (t_ A) A).

(** Lines 39 and 42: [Wt = W.t()], [tww = (W.mm(Wt)).trace()]. *)
Definition tww_of (W : tensor T) : T := trace (mm W (t_ W)).

End ModuleLevel.

(** A tensor with [rows] rows of [cols] entries each. *)
Definition shaped {A} (rows cols : nat) (a : list (list A)) : Prop :=
  length a = rows /\ Forall (fun r => length r = cols) a.

(** Small inputs for the examples of this part. *)
Module Inputs2.

Definition W22 : tensor R := [[1; 2]; [3; 4]]%R.
Definition support22 : tensor R := [[1; 0]; [0; 1]]%R.
Definition nonzero22 : tensor R := [[5; 6]; [7; 8]]%R.

(** The source's constants over a batch of two signals of length two: only
    the sizes differ. *)
Definition G22 : Globals R := {|
  N := 2; M := 1; p := (1 / 10)%R; batch_size := 2; num_batch := 200;
  num_generations := 15; snr := 40%R; alpha2 := 1%R; max_layers := 20;
  adam_lr := (4 / 100)%R;
  At := [[1]; [1]]%R; Wt := [[1 / 2; 1 / 2]]%R; taa := 2%R; tww := (1 / 2)%R
|}.

Definition t22 : tensor R := [[3]; [4]]%R.

(** An environment over the reals: every batch is [nonzero22] masked by
    [support22], no noise, a gradient of zeros, a plain gradient step. *)
Fixpoint descendR (lr : R) (g gr : vec R) : vec R :=
  match g with
  | [] => []
  | x :: g' => (x - lr * hd 0 gr)%R :: descendR lr g' (tl gr)
  end.

Definition ER : Env R := {|
  gamma_init := repeat 1%R 20;
  generate_batch_snr := fun _ => generate_batch_from support22 nonzero22;
  generate_batch := fun _ => generate_batch_from support22 nonzero22;
  noise := fun _ => zeros 2 1;
  autograd := fun _ g => map (fun _ => 0%R) g;
  opt_state := unit;
  opt_init := tt;
  opt_step := fun o g gr => (o, descendR (4 / 100) g gr)
|}.

(** The same with only five parameters, fewer than the generations. *)
Definition ER_short : Env R := {|
  gamma_init := repeat 1%R 5;
  generate_batch_snr := generate_batch_snr ER;
  generate_batch := generate_batch ER;
  noise := noise ER;
  autograd := autograd ER;
  opt_state := unit;
  opt_init := tt;
  opt_step := opt_step ER
|}.

End Inputs2.

(** ** The variance estimate as a function of a row's squared norm

    [tau2_value] is the entry [eval_tau2] computes for a row of squared norm
    [e] under the gain [g]; [tau2_clamped] is the same with the quotient
    clamped from below at 1e-7. *)

Definition tau2_formula (G : Globals R) (C : Calib R) (g v : R) : R :=
  (v / INR (N G) * (INR (N G) + (g * g - 2 * g) * INR (M G))
   + g * g * tww G * sigma2 C / INR (N G))%R.

Definition v2_value (G : Globals R) (C : Calib R) (e : R) : R :=
  ((e - INR (M G) * sigma2 C) / taa G)%R.

Definition tau2_value (G : Globals R) (C : Calib R) (g e : R) : R :=
  tau2_formula G C g (v2_value G C e).

Definition tau2_clamped (G : Globals R) (C : Calib R) (g e : R) : R :=
  tau2_formula G C g
    (if Rlt_dec (v2_value G C e) (1 / 10000000) then (1 / 10000000)%R
     else v2_value G C e).

(** * Properties *)

Unset Implicit Arguments.

(** ** The shrinkage function in exact arithmetic *)

Section ShrinkageR.
Variable G : Globals R.
Variable C : Calib R.

Lemma gaussR (x var : R) : gauss x var = exp (- (x * x) / (2 * var))%R.
Proof. reflexivity. Qed.

Lemma gauss_pos (x var : R) : (0 < gauss x var)%R.
Proof. rewrite gaussR. apply exp_pos. Qed.

Lemma gauss_even (x var : R) : gauss (- x)%R var = gauss x var.
Proof. rewrite !gaussR. f_equal. f_equal. ring. Qed.

Lemma gauss_at_0 (var : R) : gauss 0%R var = 1%R.
Proof.
  rewrite gaussR.
  replace (- (0 * 0) / (2 * var))%R with 0%R by (unfold Rdiv; ring).
  apply exp_0.
Qed.

Lemma MMSE_shrinkageR (y tau2 : R) :
  MMSE_shrinkage G C y tau2
  = ((y * alpha2 G / xi C) * p G * gauss y (xi C)
     / ((1 - p G) * gauss y tau2 + p G * gauss y (xi C)))%R.
Proof. reflexivity. Qed.

Lemma mixture_pos (y tau2 : R) :
  (0 < p G < 1)%R ->
  (0 < (1 - p G) * gauss y tau2 + p G * gauss y (xi C))%R.
Proof.
  intros [Hp0 Hp1].
  pose proof (gauss_pos y tau2) as H1.
  pose proof (gauss_pos y (xi C)) as H2.
  apply Rplus_lt_0_compat; apply Rmult_lt_0_compat; lra.
Qed.

End ShrinkageR.

(** ** The shrinkage function in binary32 *)

Module F32Facts.
Import F32.

Lemma round_aux_opp (s : bool) (m e : Z) (l : location) :
  binary_round_aux prec emax (negb s) m e l
  = SFopp (binary_round_aux prec emax s m e l).
Proof.
  unfold binary_round_aux.
  destruct (shr_fexp prec emax m e l) as [mrs e'].
  destruct (shr_fexp prec emax _ e' loc_Exact) as [mrs' e''].
  destruct (shr_m mrs'); try reflexivity.
  destruct (Z.leb e'' (emax - prec)); reflexivity.
Qed.

Lemma mul_opp_l (x y : float32) : mul (SFopp x) y = SFopp (mul x y).
Proof.
  destruct x as [sx|sx| |sx mx ex], y as [sy|sy| |sy my ey]; cbn;
    rewrite <- ?negb_xorb_l; try reflexivity.
  apply round_aux_opp.
Qed.

Lemma mul_opp_opp (x : float32) : mul (SFopp x) (SFopp x) = mul x x.
Proof.
  destruct x as [s|s| |s m e]; cbn; try reflexivity;
    destruct s; reflexivity.
Qed.

Lemma div_opp_l (x y : float32) : div (SFopp x) y = SFopp (div x y).
Proof.
  destruct x as [sx|sx| |sx mx ex], y as [sy|sy| |sy my ey]; cbn;
    rewrite <- ?negb_xorb_l; try reflexivity.
  destruct (SFdiv_core_binary prec emax (Z.pos mx) ex (Z.pos my) ey)
    as [[mz ez] lz].
  apply round_aux_opp.
Qed.

(** A product with a zero is a zero or NaN. *)
Lemma mul_zero_r (x z : float32) :
  is_zero z = true -> is_zero (mul x z) = true \/ mul x z = nan.
Proof.
  destruct z; try discriminate; intros _.
  destruct x; cbn; auto.
Qed.

Lemma add_zero_or_nan (x y : float32) :
  is_zero x = true \/ x = nan ->
  is_zero y = true \/ y = nan ->
  is_zero (add x y) = true \/ add x y = nan.
Proof.
  intros [Hx | ->] [Hy | ->].
  - destruct x; try discriminate. destruct y; try discriminate.
    destruct s, s0; cbn; auto.
  - destruct x; cbn; auto.
  - cbn; auto.
  - cbn; auto.
Qed.

Lemma div_zero_or_nan (x y : float32) :
  is_zero x = true \/ x = nan ->
  is_zero y = true \/ y = nan ->
  div x y = nan.
Proof.
  intros [Hx | ->] [Hy | ->].
  - destruct x; try discriminate. destruct y; try discriminate. reflexivity.
  - destruct x; reflexivity.
  - reflexivity.
  - reflexivity.
Qed.

(** [x != x] holds of NaN and of nothing else. *)
Lemma compare_refl (x : float32) : x <> nan -> SFcompare x x = Some Eq.
Proof.
  unfold nan.
  destruct x as [s|s| |s m e]; cbn; intros Hx;
    try congruence; try (destruct s; reflexivity).
  destruct s; rewrite Z.compare_refl, ?Pos.compare_cont_refl; reflexivity.
Qed.

Lemma neb_refl (x : float32) : neb x x = is_nan x.
Proof.
  unfold neb, SFeqb.
  destruct x as [s|s| |s m e]; try reflexivity;
    rewrite compare_refl by discriminate; reflexivity.
Qed.

End F32Facts.

(** ** Lists and loops *)

Section ListFacts.
Context {A : Type}.

Lemma map2_cons_repeat (v : list A) (n : nat) :
  map2 cons v (map (fun x => repeat x n) v)
  = map (fun x => repeat x (S n)) v.
Proof.
  induction v as [|x v IH]; cbn [map2 map]; [reflexivity|].
  now rewrite IH.
Qed.

Lemma map_nil_repeat (v : list A) :
  map (fun x => repeat x 0) v = repeat [] (length v).
Proof.
  induction v as [|x v IH]; cbn in *; [reflexivity|]. now f_equal.
Qed.

Lemma fold_map2_cons_repeat (v : list A) (n : nat) :
  fold_right (map2 cons) (repeat [] (length v)) (repeat v n)
  = map (fun x => repeat x n) v.
Proof.
  induction n as [|n IH].
  - change (repeat v 0) with (@nil (list A)). cbn [fold_right].
    symmetry. apply map_nil_repeat.
  - change (repeat v (S n)) with (v :: repeat v n).
    cbn [fold_right]. rewrite IH. apply map2_cons_repeat.
Qed.

End ListFacts.

Section LoopFacts.
Context {S : Type}.
Variable body : nat -> S -> result S.

Lemma for_range_last (start n : nat) (s : S) :
  for_range start (Datatypes.S n) body s
  = s' <- for_range start n body s ;; body (start + n) s'.
Proof.
  revert start s. induction n as [|n IH]; intros start s.
  - cbn. rewrite Nat.add_0_r. destruct (body start s); reflexivity.
  - change (for_range start (Datatypes.S (Datatypes.S n)) body s)
      with (s' <- body start s ;;
            for_range (Datatypes.S start) (Datatypes.S n) body s').
    change (for_range start (Datatypes.S n) body s)
      with (s' <- body start s ;; for_range (Datatypes.S start) n body s').
    destruct (body start s) as [s1|e]; cbn [bind]; [|reflexivity].
    rewrite IH. now rewrite Nat.add_succ_comm.
Qed.

(** A loop whose body keeps an invariant and does not raise runs to its
    end. *)
Lemma for_range_invariant (P : nat -> S -> Prop) (start n : nat) (s : S) :
  (forall i s, start <= i < start + n -> P i s ->
               exists s', body i s = Ok s' /\ P (Datatypes.S i) s') ->
  P start s ->
  exists s', for_range start n body s = Ok s' /\ P (start + n) s'.
Proof.
  revert start s. induction n as [|n IH]; intros start s Hbody H0.
  - exists s. rewrite Nat.add_0_r. now split.
  - destruct (Hbody start s) as (s1 & E1 & H1); [lia|assumption|].
    destruct (IH (Datatypes.S start) s1) as (s2 & E2 & H2); [|assumption|].
    + intros i s' Hi. apply Hbody. lia.
    + exists s2. cbn [for_range]. rewrite E1. cbn [bind].
      rewrite E2. split; [reflexivity|].
      now rewrite <- Nat.add_succ_comm.
Qed.

(** A loop stops at the first pass that raises. *)
Lemma for_range_raise (start n k : nat) (s sk : S) (e : exn) :
  k < n ->
  for_range start k body s = Ok sk ->
  body (start + k) sk = Raise e ->
  for_range start n body s = Raise e.
Proof.
  revert start k s. induction n as [|n IH]; intros start k s Hk Hpre Hb;
    [lia|].
  destruct k as [|k].
  - cbn in Hpre. injection Hpre as <-. rewrite Nat.add_0_r in Hb.
    cbn [for_range]. now rewrite Hb.
  - cbn [for_range] in Hpre |- *.
    destruct (body start s) as [s1|e1]; cbn [bind] in Hpre |- *;
      [|discriminate].
    apply (IH (Datatypes.S start) k s1); [lia|assumption|].
    now rewrite Nat.add_succ_comm.
Qed.

End LoopFacts.

(** ** The network *)

Section NetworkFacts.
Context {T : Type} `{Scalar T}.
Variable G : Globals T.
Variable C : Calib T.
Variable gamma : vec T.

Lemma index_ok (i : nat) (g : T) :
  nth_error gamma i = Some g -> index gamma i = Ok g.
Proof. unfold index. now intros ->. Qed.

Lemma index_raise (i : nat) :
  length gamma <= i -> index gamma i = Raise (IndexError i).
Proof.
  intros Hi. unfold index.
  now rewrite (proj2 (nth_error_None gamma i) Hi).
Qed.

Lemma index_in_range (i : nat) :
  i < length gamma -> exists g, nth_error gamma i = Some g.
Proof.
  intros Hi. destruct (nth_error gamma i) as [g|] eqn:E; [now exists g|].
  apply nth_error_None in E. lia.
Qed.

Lemma eval_tau2_raise (t : tensor T) (i : nat) :
  length gamma <= i -> eval_tau2 G C gamma t i = Raise (IndexError i).
Proof.
  intros Hi. unfold eval_tau2. now rewrite index_raise.
Qed.

Lemma eval_tau2_ok (t : tensor T) (i : nat) :
  i < length gamma -> exists tau2, eval_tau2 G C gamma t i = Ok tau2.
Proof.
  intros Hi. destruct (index_in_range i Hi) as [g Hg].
  unfold eval_tau2. rewrite (index_ok _ _ Hg). cbn [bind]. eauto.
Qed.

Lemma layer_raise (y s : tensor T) (i : nat) :
  length gamma <= i -> layer G C gamma y i s = Raise (IndexError i).
Proof.
  intros Hi. unfold layer. now rewrite eval_tau2_raise.
Qed.

Lemma layer_ok (y s : tensor T) (i : nat) :
  i < length gamma -> exists s', layer G C gamma y i s = Ok s'.
Proof.
  intros Hi. unfold layer.
  destruct (eval_tau2_ok (tsub y (mm s (At G))) i Hi) as [tau2 ->].
  destruct (index_in_range i Hi) as [g Hg].
  cbn [bind]. rewrite (index_ok _ _ Hg). cbn [bind]. eauto.
Qed.

Lemma forward_ok (x s noise : tensor T) (max_itr : nat) :
  max_itr <= length gamma ->
  exists out, forward G C gamma x s noise max_itr = Ok out.
Proof.
  intros Hle. unfold forward.
  destruct (for_range_invariant
              (layer G C gamma (tadd (mm x (At G)) noise))
              (fun _ _ => True) 0 max_itr s) as (out & E & _).
  - intros i s' Hi _.
    destruct (layer_ok (tadd (mm x (At G)) noise) s' i) as [s'' E];
      [lia|].
    exists s''. now split.
  - exact I.
  - now exists out.
Qed.

Lemma forward_raise (x s noise : tensor T) (max_itr : nat) :
  length gamma < max_itr ->
  forward G C gamma x s noise max_itr = Raise (IndexError (length gamma)).
Proof.
  intros Hlt.
  destruct (forward_ok x s noise _ (le_n (length gamma))) as [out E].
  unfold forward in *.
  apply (for_range_raise _ 0 _ (length gamma) s out _ Hlt E).
  apply layer_raise. cbn. lia.
Qed.

Lemma transpose_expand (v : vec T) (n : nat) :
  length v = batch_size G ->
  transpose (batch_size G) (expand n v) = map (fun x => repeat x n) v.
Proof.
  intros <-. unfold transpose, expand. apply fold_map2_cons_repeat.
Qed.

(** The tensor returned by [eval_tau2]: row [b] repeats the value computed
    from the norm of row [b] of [t], with the quotient [v2] as it was
    computed, not clamped. *)
Lemma eval_tau2_rows (t : tensor T) (i : nat) (g : T) :
  nth_error gamma i = Some g ->
  length t = batch_size G ->
  eval_tau2 G C gamma t i
  = Ok (map (fun n =>
               let v := ((n * n - of_nat (M G) * sigma2 C) / taa G)%S in
               repeat
                 ((v / of_nat (N G))
                  * (of_nat (N G) + (g * g - of_Z 2 * g) * of_nat (M G))
                  + g * g * tww G * sigma2 C / of_nat (N G))%S
                 (N G))
            (norm2_rows t)).
Proof.
  intros Hg Hlen. unfold eval_tau2. rewrite (index_ok _ _ Hg). cbn [bind].
  f_equal. unfold pow2. rewrite !map_map.
  rewrite transpose_expand; [now rewrite map_map|].
  rewrite length_map. unfold norm2_rows. now rewrite length_map.
Qed.

End NetworkFacts.

(** ** Claims on the shrinkage function *)

Section CheckedShrinkage.
Variable G : Globals R.
Variable C : Calib R.

Lemma checked_div (a b : R) :
  b <> 0%R -> sdiv (Scalar := CheckedR) (Some a) (Some b) = Some (a / b)%R.
Proof.
  intros Hb. cbn. destruct (Req_dec_T b 0) as [E | _]; [contradiction|reflexivity].
Qed.

Lemma checked_gauss (x var : R) :
  var <> 0%R ->
  gauss (H := CheckedR) (Some x) (Some var) = Some (gauss x var).
Proof.
  intros Hv. unfold gauss.
  change (of_Z (Scalar := CheckedR) 2) with (Some 2%R).
  change (smul (Scalar := CheckedR) (Some 2%R) (Some var))
    with (Some (2 * var)%R).
  change (sneg (Scalar := CheckedR)
            (smul (Scalar := CheckedR) (Some x) (Some x)))
    with (Some (- (x * x))%R).
  rewrite checked_div by lra. reflexivity.
Qed.

Lemma checked_MMSE_shrinkage (y tau2 : R) :
  tau2 <> 0%R -> xi C <> 0%R ->
  ((1 - p G) * gauss y tau2 + p G * gauss y (xi C))%R <> 0%R ->
  MMSE_shrinkage (H := CheckedR) (checked_globals G) (checked_calib C)
    (Some y) (Some tau2)
  = Some (MMSE_shrinkage G C y tau2).
Proof.
  intros Ht Hx Hd. unfold MMSE_shrinkage at 1.
  cbn [checked_globals checked_calib alpha2 xi p].
  rewrite !checked_gauss by assumption.
  change (smul (Scalar := CheckedR) (Some y) (Some (alpha2 G)))
    with (Some (y * alpha2 G)%R).
  rewrite checked_div by assumption.
  change (of_Z (Scalar := CheckedR) 1) with (Some 1%R).
  change (ssub (Scalar := CheckedR) (Some 1%R) (Some (p G)))
    with (Some (1 - p G)%R).
  cbn [smul sadd CheckedR lift2].
  rewrite checked_div by assumption. reflexivity.
Qed.

End CheckedShrinkage.

(** C7.  The shrinkage function is odd in its first argument:
    [MMSE_shrinkage (-r) tau2 = - MMSE_shrinkage r tau2].  It holds of every
    real [r] and [tau2], and in binary32 of every [r] and [tau2] whatever
    exponential the library provides (the density only sees [r*r], and
    negation commutes with rounded products and quotients). *)
Theorem MMSE_shrinkage_odd :
  (forall (G : Globals R) (C : Calib R) (r tau2 : R),
      MMSE_shrinkage G C (- r)%R tau2 = (- MMSE_shrinkage G C r tau2)%R)
  /\
  (forall (L : F32.Libm) (G : Globals F32.float32) (C : Calib F32.float32)
          (r tau2 : F32.float32),
      MMSE_shrinkage (H := F32Scalar L) G C (SFopp r) tau2
      = SFopp (MMSE_shrinkage (H := F32Scalar L) G C r tau2)).
Proof.
  split.
  - intros G C r tau2. rewrite !MMSE_shrinkageR, !gauss_even.
    unfold Rdiv. ring.
  - intros L G C r tau2. unfold MMSE_shrinkage, gauss.
    cbn [sadd ssub smul sdiv sneg sexp of_Z F32Scalar].
    rewrite F32Facts.mul_opp_opp.
    rewrite !F32Facts.mul_opp_l, !F32Facts.div_opp_l, !F32Facts.mul_opp_l.
    apply F32Facts.div_opp_l.
Qed.

(** C9.  A zero coordinate is mapped to zero: for [tau2 > 0] and [xi > 0],
    both densities are 1 at [r = 0], the mixture in the denominator is
    [(1-p) + p = 1], and [MMSE_shrinkage 0 tau2 = 0], with no division by
    zero on the way (the checked arithmetic yields the value 0). *)
Theorem MMSE_shrinkage_at_zero (G : Globals R) (C : Calib R) (tau2 : R) :
  (0 < tau2)%R -> (0 < xi C)%R ->
  gauss 0%R tau2 = 1%R
  /\ gauss 0%R (xi C) = 1%R
  /\ ((1 - p G) * gauss 0%R tau2 + p G * gauss 0%R (xi C))%R = 1%R
  /\ MMSE_shrinkage G C 0%R tau2 = 0%R
  /\ MMSE_shrinkage (H := CheckedR) (checked_globals G) (checked_calib C)
       (Some 0%R) (Some tau2) = Some 0%R.
Proof.
  intros Ht Hx.
  assert (Hd : ((1 - p G) * gauss 0%R tau2 + p G * gauss 0%R (xi C))%R = 1%R)
    by (rewrite !gauss_at_0; ring).
  assert (Hz : MMSE_shrinkage G C 0%R tau2 = 0%R)
    by (rewrite MMSE_shrinkageR; unfold Rdiv; ring).
  repeat split; try apply gauss_at_0; try assumption.
  rewrite checked_MMSE_shrinkage; try lra.
  now rewrite Hz.
Qed.

Lemma MMSE_shrinkage_at_zero_witness :
  (0 < 1)%R
  /\ MMSE_shrinkage (H := CheckedR) (checked_globals Inputs.GR)
       (checked_calib Inputs.CR) (Some 0%R) (Some 1%R) = Some 0%R.
Proof.
  split; [lra|].
  apply (MMSE_shrinkage_at_zero Inputs.GR Inputs.CR 1%R); [lra|cbn; lra].
Defined.

(** The same in binary32, at [tau2 = 1]: the mixture is exactly 1 and the
    value is +0. *)
Example MMSE_shrinkage_at_zero_f32 :
  F32.add
    (F32.mul (F32.sub (F32.of_int 1) (p Inputs.G32))
             (gauss (H := Inputs.S32) F32.pzero (F32.of_int 1)))
    (F32.mul (p Inputs.G32)
             (gauss (H := Inputs.S32) F32.pzero (xi Inputs.C32)))
  = F32.one
  /\ MMSE_shrinkage (H := Inputs.S32) Inputs.G32 Inputs.C32
       F32.pzero (F32.of_int 1) = F32.pzero.
Proof. split; vm_compute; reflexivity. Qed.

(** C10.  For [tau2 > 0], [xi > 0] and [0 < p < 1] the mixture
    [(1-p)*gauss r tau2 + p*gauss r xi] is positive, and the evaluation of
    [MMSE_shrinkage] divides by zero nowhere: in the checked arithmetic it
    has a value, the one of the plain real arithmetic. *)
Theorem MMSE_shrinkage_total (G : Globals R) (C : Calib R) (r tau2 : R) :
  (0 < tau2)%R -> (0 < xi C)%R -> (0 < p G < 1)%R ->
  (0 < (1 - p G) * gauss r tau2 + p G * gauss r (xi C))%R
  /\ MMSE_shrinkage (H := CheckedR) (checked_globals G) (checked_calib C)
       (Some r) (Some tau2)
     = Some (MMSE_shrinkage G C r tau2).
Proof.
  intros Ht Hx Hp.
  pose proof (mixture_pos G C r tau2 Hp) as Hd.
  split; [exact Hd|].
  apply checked_MMSE_shrinkage; lra.
Qed.

Lemma MMSE_shrinkage_total_witness :
  (0 < p Inputs.GR < 1)%R
  /\ MMSE_shrinkage (H := CheckedR) (checked_globals Inputs.GR)
       (checked_calib Inputs.CR) (Some 3%R) (Some 1%R)
     = Some (MMSE_shrinkage Inputs.GR Inputs.CR 3%R 1%R).
Proof.
  assert (Hp : (0 < p Inputs.GR < 1)%R) by (cbn; lra).
  split; [exact Hp|].
  apply (MMSE_shrinkage_total Inputs.GR Inputs.CR 3%R 1%R);
    [lra|cbn; lra|exact Hp].
Defined.

(** C3 (as the code has it).  When both density terms are zero, the
    numerator is a zero (or NaN) and the mixture is a zero (or NaN), and
    their quotient is NaN: [MMSE_shrinkage] returns NaN, for every [r],
    [tau2] and every exponential. *)
Theorem MMSE_shrinkage_zero_over_zero
    (L : F32.Libm) (G : Globals F32.float32) (C : Calib F32.float32)
    (r tau2 : F32.float32) :
  F32.is_zero (gauss (H := F32Scalar L) r tau2) = true ->
  F32.is_zero (gauss (H := F32Scalar L) r (xi C)) = true ->
  MMSE_shrinkage (H := F32Scalar L) G C r tau2 = F32.nan.
Proof.
  intros Ht Hx. unfold MMSE_shrinkage.
  cbn [sadd ssub smul sdiv F32Scalar].
  apply F32Facts.div_zero_or_nan.
  - apply F32Facts.mul_zero_r, Hx.
  - apply F32Facts.add_zero_or_nan; apply F32Facts.mul_zero_r; assumption.
Qed.

Lemma MMSE_shrinkage_zero_over_zero_witness :
  F32.is_zero (gauss (H := Inputs.S32) (F32.of_int 100) (F32.of_int 1)) = true
  /\ MMSE_shrinkage (H := Inputs.S32) Inputs.G32 Inputs.C32
       (F32.of_int 100) (F32.of_int 1) = F32.nan.
Proof.
  split; [reflexivity|].
  apply (MMSE_shrinkage_zero_over_zero F32.tails Inputs.G32 Inputs.C32
           (F32.of_int 100) (F32.of_int 1)); reflexivity.
Defined.

(** C3 (as stated) fails: at [r = 100], [tau2 = 1], [xi = 1.00002] the
    input is finite, both density terms are +0, and the value returned is
    NaN, not 0. *)
Lemma MMSE_shrinkage_underflow_is_not_zero :
  F32.is_finite (F32.of_int 100) = true
  /\ gauss (H := Inputs.S32) (F32.of_int 100) (F32.of_int 1) = F32.pzero
  /\ gauss (H := Inputs.S32) (F32.of_int 100) (xi Inputs.C32) = F32.pzero
  /\ MMSE_shrinkage (H := Inputs.S32) Inputs.G32 Inputs.C32
       (F32.of_int 100) (F32.of_int 1) = F32.nan
  /\ MMSE_shrinkage (H := Inputs.S32) Inputs.G32 Inputs.C32
       (F32.of_int 100) (F32.of_int 1) <> F32.pzero.
Proof.
  repeat split; try (vm_compute; reflexivity).
  vm_compute. discriminate.
Qed.

(** ** Claims on the network *)



(** C8.  When [gamma] has [max_layers] entries and more layers are asked
    for, the passes [0 .. max_layers - 1] run, the pass with index
    [max_layers] raises the index error of [gamma[max_layers]], and that
    error is the result of [forward]: it is not the result of the call with
    [max_layers], which returns a tensor. *)
Theorem forward_out_of_range {T : Type} `{Scalar T}
    (G : Globals T) (C : Calib T) (gamma : vec T)
    (x s noise : tensor T) (max_itr : nat) :
  length gamma = max_layers G ->
  max_layers G < max_itr ->
  forward G C gamma x s noise max_itr = Raise (IndexError (max_layers G))
  /\ (exists s',
        for_range 0 (max_layers G)
          (layer G C gamma (tadd (mm x (At G)) noise)) s = Ok s'
        /\ layer G C gamma (tadd (mm x (At G)) noise) (max_layers G) s'
           = Raise (IndexError (max_layers G)))
  /\ (exists out, forward G C gamma x s noise (max_layers G) = Ok out)
  /\ forward G C gamma x s noise max_itr
     <> forward G C gamma x s noise (max_layers G).
Proof.
  intros Hlen Hlt.
  assert (Hr : forward G C gamma x s noise max_itr
               = Raise (IndexError (max_layers G))).
  { rewrite <- Hlen. apply forward_raise. lia. }
  destruct (forward_ok G C gamma x s noise (max_layers G)) as [out Eo];
    [lia|].
  split; [exact Hr|]. split; [|split].
  - exists out. split; [exact Eo|].
    apply layer_raise. lia.
  - now exists out.
  - rewrite Hr, Eo. discriminate.
Qed.

Lemma forward_out_of_range_witness :
  forward Inputs.GR Inputs.CR (repeat 1%R 20)
    Inputs.t_zero Inputs.t_zero Inputs.t_zero 21
  = Raise (IndexError 20).
Proof.
  apply (forward_out_of_range Inputs.GR Inputs.CR (repeat 1%R 20)
           Inputs.t_zero Inputs.t_zero Inputs.t_zero 21).
  - reflexivity.
  - cbn. lia.
Defined.

(** ** Claims on the variance estimator *)

Section ZeroResidual.

Lemma vsum_zerosR (n : nat) :
  vsum (map (fun x : R => (x * x)%S) (repeat (zero (T := R)) n)) = 0%R.
Proof.
  unfold vsum, zero. cbn [of_Z RScalar].
  assert (Hacc : forall a : R,
    fold_left sadd (map (fun x : R => (x * x)%S) (repeat 0%R n)) a = a).
  { induction n as [|k IH]; intros a; [reflexivity|].
    change (repeat 0%R (S k)) with (0%R :: repeat 0%R k).
    cbn [map fold_left]. rewrite IH. cbn [sadd smul RScalar]. ring. }
  apply Hacc.
Qed.

Lemma norm2_rows_zerosR (rows cols : nat) :
  norm2_rows (zeros (T := R) rows cols) = repeat 0%R rows.
Proof.
  unfold norm2_rows, zeros. rewrite map_repeat.
  rewrite vsum_zerosR. cbn [ssqrt RScalar]. now rewrite sqrt_0.
Qed.

End ZeroResidual.

Lemma error_variance_spec_rows {T : Type} `{Scalar T}
    (G : Globals T) (C : Calib T) (gamma : vec T)
    (t : tensor T) (i : nat) (g : T) :
  nth_error gamma i = Some g ->
  length t = batch_size G ->
  error_variance_spec G C gamma t i
  = Ok (map (fun n =>
               let v0 := ((n * n - of_nat (M G) * sigma2 C) / taa G)%S in
               let v := if sltb v0 (lit 1 10000000) then lit 1 10000000
                        else v0 in
               repeat
                 ((v / of_nat (N G))
                  * (of_nat (N G) + (g * g - of_Z 2 * g) * of_nat (M G))
                  + g * g * tww G * sigma2 C / of_nat (N G))%S
                 (N G))
            (norm2_rows t)).
Proof.
  intros Hg Hlen. unfold error_variance_spec.
  rewrite (index_ok _ _ _ Hg). cbn [bind].
  f_equal. unfold pow2, clamp_min. rewrite !map_map.
  rewrite transpose_expand; [now rewrite map_map|].
  rewrite length_map. unfold norm2_rows. now rewrite length_map.
Qed.

(** C1 (the code at a failing input).  With the source's constants,
    [taa = 500], [tww = 250], [sigma2 = 2e-5], gains of one half and a
    residual of zeros, [eval_tau2] returns the tensor all of whose entries
    are -3.75e-6: a negative variance, computed from the quotient
    [v2 = -1e-5] as it stands.  The estimator with the clamp in effect
    returns 2.5625e-6 there. *)
Theorem eval_tau2_returns_negative_variance :
  eval_tau2 Inputs.GR Inputs.CR Inputs.gamma_half Inputs.t_zero 0
  = Ok (repeat (repeat (- 3 / 800000)%R 500) 100)
  /\ (- 3 / 800000 < 0)%R
  /\ error_variance_spec Inputs.GR Inputs.CR Inputs.gamma_half Inputs.t_zero 0
     = Ok (repeat (repeat (41 / 16000000)%R 500) 100).
Proof.
  split; [|split; [lra|]].
  - rewrite (eval_tau2_rows _ _ _ _ 0 (1 / 2)%R);
      [|reflexivity|apply repeat_length].
    unfold Inputs.t_zero. rewrite norm2_rows_zerosR, map_repeat.
    do 3 f_equal.
    unfold of_nat. cbn. field.
  - rewrite (error_variance_spec_rows _ _ _ _ 0 (1 / 2)%R);
      [|reflexivity|apply repeat_length].
    unfold Inputs.t_zero. rewrite norm2_rows_zerosR, map_repeat.
    do 3 f_equal.
    unfold of_nat. cbn.
    destruct (Rlt_dec _ _) as [_|Hn]; [field|].
    exfalso. apply Hn. lra.
Qed.

(** ** Claims on the SNR calculation *)

Section Calibration.

Lemma fold_left_Rplus (l : list R) (a : R) :
  fold_left Rplus l a = (a + sumR l)%R.
Proof.
  revert a. induction l as [|x l IH]; intros a; cbn [fold_left sumR fold_right].
  - ring.
  - rewrite IH. unfold sumR. ring.
Qed.

Lemma vsumR (l : list R) : vsum l = sumR l.
Proof.
  unfold vsum, zero. cbn [of_Z sadd RScalar].
  rewrite fold_left_Rplus. ring.
Qed.

Lemma squared_norm_nonneg (row : list R) : (0 <= squared_norm row)%R.
Proof.
  unfold squared_norm.
  induction row as [|x row IH]; cbn [map sumR fold_right]; [lra|].
  pose proof (Rle_0_sqr x) as Hx. unfold Rsqr in Hx.
  unfold sumR in IH. lra.
Qed.

(** [y.norm(2, 1).pow(2.0)] is the squared norm of each row. *)
Lemma pow2_norm2_rows (y : tensor R) :
  pow2 (norm2_rows y) = map squared_norm y.
Proof.
  unfold pow2, norm2_rows. rewrite map_map.
  apply map_ext. intros row. cbn [smul ssqrt RScalar].
  rewrite vsumR. apply sqrt_sqrt, squared_norm_nonneg.
Qed.

Lemma energyR (y : tensor R) : energy y = sumR (map squared_norm y).
Proof. unfold energy. now rewrite vsumR, pow2_norm2_rows. Qed.

Lemma calib_sumR (G : Globals R) (E : Env R) :
  calib_sum G E = calibration_energy G E.
Proof.
  unfold calib_sum, calibration_energy.
  assert (Hacc : forall (l : list nat) (a : R),
    fold_left
      (fun (sum : R) (i : nat) =>
         (sum + energy (mm (generate_batch_snr E i) (At G)))%S) l a
    = (a + sumR (map (fun i =>
                        sumR (map squared_norm (mm (generate_batch_snr E i) (At G))))
                     l))%R).
  { induction l as [|i l IH]; intros a; cbn [fold_left map sumR fold_right].
    - ring.
    - rewrite IH, energyR. cbn [sadd RScalar]. unfold sumR. ring. }
  rewrite Hacc. unfold zero. cbn [of_Z RScalar]. ring.
Qed.

End Calibration.

(** C6.  The SNR calculation assigns
    [sigma2 = (E / (100 * batch_size)) / (M * 10^(snr/10))], where [E] is the
    total squared energy of the noiseless measurements over the rows of the
    100 drawn batches (so the first quotient is the average per batch item),
    and [xi = alpha2 + sigma2]; [main] runs the training loop under these
    values. *)
Theorem calibrate_formula (G : Globals R) (E : Env R) :
  sigma2 (calibrate G E)
  = (calibration_energy G E / (100 * INR (batch_size G))
     / (INR (M G) * Rpower 10 (snr G / 10)))%R
  /\ xi (calibrate G E) = (alpha2 G + sigma2 (calibrate G E))%R
  /\ sigma_std (calibrate G E) = sqrt (sigma2 (calibrate G E))
  /\ main G E = training G E (calibrate G E).
Proof.
  repeat split.
  unfold calibrate. cbn [sigma2]. rewrite calib_sumR.
  unfold of_nat. cbn [sdiv smul spow of_Z RScalar].
  now rewrite <- !INR_IZR_INZ.
Qed.

(** ** The training loop *)

Section TrainingFacts.
Context {T : Type} `{Scalar T}.
Variable G : Globals T.
Variable E : Env T.
Variable C : Calib T.

Lemma network_ok (ph : phase) (gen : nat) (st : state E) :
  gen + 1 <= length (gamma st) ->
  exists x x_hat st1,
    network G C ph gen st = Ok (x, x_hat, st1)
    /\ gamma st1 = gamma st /\ opt st1 = opt st
    /\ draws st1 = S (draws st)
    /\ calls st1 = calls st ++ [mk_call gen ph]
    /\ printed st1 = printed st.
Proof.
  intros Hlen. unfold network, run_network.
  destruct (forward_ok G C (gamma st) (generate_batch E (draws st)) (s_zero G)
              (noise E (draws st)) (gen + 1) Hlen) as [x_hat ->].
  cbn [bind]. do 3 eexists. split; [reflexivity|]. cbn. repeat split.
Qed.

(** What one mini-batch does to the state. *)
Lemma train_batch_cases (gen i : nat) (st : state E) :
  gen + 1 <= length (gamma st) ->
  exists st',
    train_batch G C gen i st = Ok st'
    /\ calls st' = calls st ++ [mk_call gen Train]
    /\ draws st' = S (draws st)
    /\ printed st' = printed st
    /\ (existsb isnan (loss_grad G C gen st) = true ->
        gamma st' = gamma st /\ opt st' = opt st)
    /\ (existsb isnan (loss_grad G C gen st) = false ->
        (opt st', gamma st')
        = opt_step E (opt st) (gamma st) (loss_grad G C gen st)).
Proof.
  intros Hlen. unfold train_batch.
  destruct (network_ok Train gen st Hlen)
    as (x & x_hat & st1 & -> & Hg & Ho & Hd & Hc & Hp).
  cbn [bind existsb]. rewrite orb_false_r.
  destruct (existsb isnan (loss_grad G C gen st)) eqn:Enan.
  - exists st1. repeat split; try assumption; discriminate.
  - rewrite Hg, Ho.
    destruct (opt_step E (opt st) (gamma st) (loss_grad G C gen st))
      as [o g] eqn:Es.
    eexists. split; [reflexivity|]. cbn.
    repeat split; try assumption; discriminate.
Qed.

Hypothesis opt_step_length : forall o g gr,
  length (snd (opt_step E o g gr)) = length g.

Lemma train_batch_ok (gen i : nat) (st : state E) :
  gen + 1 <= length (gamma st) ->
  exists st',
    train_batch G C gen i st = Ok st'
    /\ length (gamma st') = length (gamma st)
    /\ calls st' = calls st ++ [mk_call gen Train].
Proof.
  intros Hlen.
  destruct (train_batch_cases gen i st Hlen)
    as (st' & Es & Hc & _ & _ & Hnan & Hstep).
  exists st'. repeat split; try assumption.
  destruct (existsb isnan (loss_grad G C gen st)).
  - destruct Hnan as [-> _]; reflexivity.
  - specialize (Hstep eq_refl).
    rewrite <- (opt_step_length (opt st) (gamma st) (loss_grad G C gen st)).
    now rewrite <- Hstep.
Qed.

Lemma eval_batch_ok (gen i : nat) (a : state E * T) :
  gen + 1 <= length (gamma (fst a)) ->
  exists a',
    eval_batch G C gen i a = Ok a'
    /\ gamma (fst a') = gamma (fst a)
    /\ calls (fst a') = calls (fst a) ++ [mk_call gen Eval].
Proof.
  destruct a as [st nmse_sum]. cbn [fst]. intros Hlen. unfold eval_batch.
  destruct (network_ok Eval gen st Hlen)
    as (x & x_hat & st1 & -> & Hg & _ & _ & Hc & _).
  cbn [bind]. eexists. split; [reflexivity|]. cbn [fst]. now split.
Qed.

Lemma repeat_snoc {A} (x : A) (n : nat) : repeat x n ++ [x] = repeat x (S n).
Proof. symmetry. apply repeat_cons. Qed.

Lemma generation_ok (gen : nat) (st : state E) :
  gen + 1 <= length (gamma st) ->
  exists st',
    generation G C gen st = Ok st'
    /\ length (gamma st') = length (gamma st)
    /\ calls st' = calls st ++ calls_of_generation G gen.
Proof.
  intros Hlen. unfold generation.
  destruct (for_range_invariant (train_batch G C gen)
              (fun k s => length (gamma s) = length (gamma st)
                          /\ calls s = calls st
                                       ++ repeat (mk_call gen Train) k)
              0 (num_batch G) st) as (st1 & -> & Hl1 & Hc1).
  { intros k s _ [Hl Hc].
    destruct (train_batch_ok gen k s) as (s' & Es & Hl' & Hc'); [lia|].
    exists s'. split; [exact Es|]. split; [lia|].
    now rewrite Hc', Hc, <- app_assoc, repeat_snoc. }
  { split; [reflexivity|]. cbn [repeat]. now rewrite app_nil_r. }
  cbn [bind]. cbn [Nat.add] in Hc1.
  destruct (for_range_invariant (eval_batch G C gen)
              (fun k a => length (gamma (fst a)) = length (gamma st)
                          /\ calls (fst a)
                             = calls st1 ++ repeat (mk_call gen Eval) k)
              0 10 (st1, zero)) as ([st2 nmse_sum] & -> & Hl2 & Hc2).
  { intros k a _ [Hl Hc].
    destruct (eval_batch_ok gen k a) as (a' & Ea & Hg' & Hc'); [lia|].
    exists a'. split; [exact Ea|]. split; [now rewrite Hg'|].
    now rewrite Hc', Hc, <- app_assoc, repeat_snoc. }
  { cbn [fst]. split; [exact Hl1|]. cbn [repeat]. now rewrite app_nil_r. }
  cbn [bind fst] in *. eexists. split; [reflexivity|]. cbn.
  split; [exact Hl2|].
  rewrite Hc2, Hc1, <- app_assoc. reflexivity.
Qed.

Lemma training_ok :
  num_generations G <= length (gamma_init E) ->
  exists st, training G E C = Ok st /\ calls st = expected_calls G.
Proof.
  intros Hlen. unfold training.
  destruct (for_range_invariant (generation G C)
              (fun g s => length (gamma s) = length (gamma_init E)
                          /\ calls s
                             = flat_map (calls_of_generation G) (seq 0 g))
              0 (num_generations G) (init_state E)) as (st & Es & _ & Hc).
  - intros g s Hg [Hl Hc].
    destruct (generation_ok g s) as (s' & Es & Hl' & Hc'); [lia|].
    exists s'. split; [exact Es|]. split; [lia|].
    rewrite Hc', Hc, seq_S, flat_map_app. cbn [flat_map Nat.add].
    now rewrite app_nil_r.
  - now split.
  - exists st. now split.
Qed.

End TrainingFacts.

Lemma in_expected_calls {T} (G : Globals T) (c : call) :
  In c (expected_calls G) ->
  call_gen c < num_generations G /\ call_itr c = call_gen c + 1.
Proof.
  unfold expected_calls. rewrite in_flat_map.
  intros (g & Hg & Hin). apply in_seq in Hg.
  unfold calls_of_generation in Hin. apply in_app_or in Hin.
  destruct Hin as [Hin|Hin]; apply repeat_spec in Hin; subst c; cbn; lia.
Qed.

(** A pass of [network] is a pass of [forward] with [gen + 1] layers, that
    is the layers 0 to [gen] in this order, on the batch and the noise drawn
    for it. *)
Lemma network_pass {T : Type} `{Scalar T}
    (G : Globals T) (E : Env T) (C : Calib T)
    (ph : phase) (gen : nat) (st : state E) :
  gen + 1 <= length (gamma st) ->
  exists x_hat st1,
    network G C ph gen st = Ok (generate_batch E (draws st), x_hat, st1)
    /\ forward G C (gamma st) (generate_batch E (draws st)) (s_zero G)
         (noise E (draws st)) (gen + 1) = Ok x_hat
    /\ for_range 0 (gen + 1)
         (layer G C (gamma st)
            (tadd (mm (generate_batch E (draws st)) (At G))
                  (noise E (draws st))))
         (s_zero G) = Ok x_hat
    /\ calls st1 = calls st ++ [mk_call gen ph].
Proof.
  intros Hlen. unfold network, run_network.
  destruct (forward_ok G C (gamma st) (generate_batch E (draws st))
              (s_zero G) (noise E (draws st)) (gen + 1) Hlen) as [x_hat Ef].
  rewrite Ef. cbn [bind]. do 2 eexists.
  split; [reflexivity|]. split; [reflexivity|].
  split; [exact Ef|]. reflexivity.
Qed.

(** C5.  Every forward pass of generation [gen] has depth [gen + 1].
    The training loop runs to its end, and the passes it makes, each
    recorded with the [max_itr] that [forward] was run with, are generation
    after generation [num_batch] training passes and then 10 evaluation
    passes with [max_itr = gen + 1].  Each such pass, training or
    evaluation, returns what [forward] returns with [gen + 1] layers (the
    layers 0 to [gen] of the recursion) on the batch drawn for it; the
    gradient of a mini-batch is taken of the loss of that same pass; and a
    mini-batch or an evaluation batch makes one pass, of its generation.
    (The optimizer returns as many parameters as it is given, and [gamma]
    has at least [num_generations] entries.) *)
Theorem training_depth {T : Type} `{Scalar T}
    (G : Globals T) (E : Env T) (C : Calib T) :
  (forall o g gr, length (snd (opt_step E o g gr)) = length g) ->
  num_generations G <= length (gamma_init E) ->
  (exists st,
     training G E C = Ok st
     /\ calls st = expected_calls G
     /\ (forall c, In c (calls st) ->
           call_gen c < num_generations G /\ call_itr c = call_gen c + 1))
  /\ (forall (ph : phase) (gen : nat) (st : state E),
        gen + 1 <= length (gamma st) ->
        exists x_hat st1,
          network G C ph gen st = Ok (generate_batch E (draws st), x_hat, st1)
          /\ forward G C (gamma st) (generate_batch E (draws st)) (s_zero G)
               (noise E (draws st)) (gen + 1) = Ok x_hat
          /\ for_range 0 (gen + 1)
               (layer G C (gamma st)
                  (tadd (mm (generate_batch E (draws st)) (At G))
                        (noise E (draws st))))
               (s_zero G) = Ok x_hat
          /\ calls st1 = calls st ++ [mk_call gen ph])
  /\ (forall (gen : nat) (st : state E),
        loss_grad G C gen st
        = autograd E
            (fun g =>
               x_hat <- forward G C g (generate_batch E (draws st)) (s_zero G)
                          (noise E (draws st)) (gen + 1) ;;
               Ok (mse_loss x_hat (generate_batch E (draws st))))
            (gamma st))
  /\ (forall (gen i : nat) (st : state E),
        gen + 1 <= length (gamma st) ->
        exists st1,
          train_batch G C gen i st = Ok st1
          /\ calls st1 = calls st ++ [mk_call gen Train])
  /\ (forall (gen i : nat) (st : state E) (nmse_sum : T),
        gen + 1 <= length (gamma st) ->
        exists a1,
          eval_batch G C gen i (st, nmse_sum) = Ok a1
          /\ calls (fst a1) = calls st ++ [mk_call gen Eval]).
Proof.
  intros Hstep Hlen. split; [|split; [|split; [|split]]].
  - destruct (training_ok G E C Hstep Hlen) as (st & Es & Hc).
    exists st. split; [exact Es|]. split; [exact Hc|].
    intros c Hin. rewrite Hc in Hin. now apply in_expected_calls.
  - intros ph gen st Hg. now apply network_pass.
  - intros gen st. reflexivity.
  - intros gen i st Hg.
    destruct (train_batch_ok G E C Hstep gen i st Hg) as (st1 & Es & _ & Hc).
    now exists st1.
  - intros gen i st nmse_sum Hg.
    destruct (eval_batch_ok G E C gen i (st, nmse_sum) Hg)
      as (a1 & Ea & _ & Hc).
    now exists a1.
Qed.

Lemma sgd_step_length (o : unit) (g gr : vec F32.float32) :
  length (snd (Inputs32.sgd_step o g gr)) = length g.
Proof.
  cbn [Inputs32.sgd_step snd]. revert gr.
  induction g as [|x g IH]; intros gr; cbn [Inputs32.descend length];
    [reflexivity|].
  now rewrite IH.
Qed.

Lemma training_depth_witness :
  exists st,
    training (H := Inputs.S32) Inputs.G32 Inputs32.E_nan Inputs.C32 = Ok st
    /\ calls st = expected_calls Inputs.G32.
Proof.
  destruct (training_depth (H := Inputs.S32)
              Inputs.G32 Inputs32.E_nan Inputs.C32)
    as ((st & Es & Hc & _) & _).
  - exact sgd_step_length.
  - cbn. lia.
  - exists st. now split.
Defined.

(** ** The gradient guard *)

Lemma existsb_isnan_In (L : F32.Libm) (v : vec F32.float32) :
  existsb (isnan (H := F32Scalar L)) v = true <-> In F32.nan v.
Proof.
  rewrite existsb_exists. split.
  - intros (x & Hin & Hx). unfold isnan in Hx. cbn [sneb F32Scalar] in Hx.
    rewrite F32Facts.neb_refl in Hx.
    destruct x; try discriminate. exact Hin.
  - intros Hin. exists F32.nan. split; [exact Hin|reflexivity].
Qed.

(** C2.  One mini-batch, in binary32.  The forward pass is made; then, if
    some coordinate of the gradient is NaN, [gamma] and the optimizer's
    state are left exactly as they were; otherwise they are the result of
    one optimizer step from the old [gamma] and this gradient.  There is no
    third outcome. *)
Theorem train_batch_nan_guard
    (L : F32.Libm) (G : Globals F32.float32) (E : Env F32.float32)
    (C : Calib F32.float32) (gen i : nat) (st : state E) :
  gen + 1 <= length (gamma st) ->
  let grad := loss_grad (H := F32Scalar L) G C gen st in
  exists st',
    train_batch (H := F32Scalar L) G C gen i st = Ok st'
    /\ (In F32.nan grad -> gamma st' = gamma st /\ opt st' = opt st)
    /\ (~ In F32.nan grad ->
          (opt st', gamma st') = opt_step E (opt st) (gamma st) grad).
Proof.
  intros Hlen grad.
  destruct (train_batch_cases (H := F32Scalar L) G E C gen i st Hlen)
    as (st' & Es & _ & _ & _ & Hnan & Hstep).
  exists st'. split; [exact Es|]. split.
  - intros Hin. apply Hnan. now apply existsb_isnan_In.
  - intros Hno. apply Hstep.
    destruct (existsb isnan (loss_grad G C gen st)) eqn:Eb; [|reflexivity].
    exfalso. apply Hno. now apply (existsb_isnan_In L).
Qed.

Lemma train_batch_nan_guard_witness :
  exists st',
    train_batch (H := Inputs.S32) Inputs.G32 Inputs.C32 0 0
      (init_state Inputs32.E_nan) = Ok st'
    /\ gamma st' = repeat F32.one 20.
Proof.
  destruct (train_batch_nan_guard F32.tails Inputs.G32 Inputs32.E_nan
              Inputs.C32 0 0 (init_state Inputs32.E_nan))
    as (st' & Es & Hnan & _).
  - cbn. lia.
  - exists st'. split; [exact Es|].
    apply Hnan. left. reflexivity.
Defined.

(** * Further properties *)

(** ** NaN detection and the densities *)

(** X1.  [isnan x], that is [x != x], is true of the binary32 NaN and of no
    other binary32 value, and of no real number. *)
Theorem isnan_spec :
  (forall (L : F32.Libm) (x : F32.float32),
      isnan (H := F32Scalar L) x = true <-> x = F32.nan)
  /\ (forall x : R, isnan x = false).
Proof.
  split.
  - intros L x. unfold isnan. cbn [sneb F32Scalar].
    rewrite F32Facts.neb_refl. unfold F32.nan.
    destruct x; cbn; split; congruence.
  - intros x. unfold isnan. cbn [sneb RScalar].
    destruct (Req_dec_T x x) as [_|Hn]; [reflexivity|now elim Hn].
Qed.

Lemma gauss_exponent_nonpos (x var : R) :
  (0 < var)%R -> (- (x * x) / (2 * var) <= 0)%R.
Proof.
  intros Hv. unfold Rdiv.
  assert (Hi : (0 < / (2 * var))%R) by (apply Rinv_0_lt_compat; lra).
  pose proof (Rle_0_sqr x) as Hx. unfold Rsqr in Hx. nra.
Qed.

Lemma exp_le (a b : R) : (a <= b)%R -> (exp a <= exp b)%R.
Proof.
  intros [Hlt | ->]; [left; now apply exp_increasing|right; reflexivity].
Qed.

(** X2.  For a positive variance the density term lies in (0, 1], and it is
    1 at [x = 0] only. *)
Theorem gauss_range (x var : R) :
  (0 < var)%R ->
  (0 < gauss x var <= 1)%R /\ (gauss x var = 1%R <-> x = 0%R).
Proof.
  intros Hv. rewrite gaussR.
  pose proof (gauss_exponent_nonpos x var Hv) as He.
  split; [split|split].
  - apply exp_pos.
  - rewrite <- exp_0. now apply exp_le.
  - intros H1. rewrite <- exp_0 in H1. apply exp_inv in H1.
    unfold Rdiv in H1.
    assert (Hi : (0 < / (2 * var))%R) by (apply Rinv_0_lt_compat; lra).
    assert (Hxx : (x * x = 0)%R) by nra.
    apply Rmult_integral in Hxx. tauto.
  - intros ->. replace (- (0 * 0) / (2 * var))%R with 0%R
      by (unfold Rdiv; ring).
    apply exp_0.
Qed.

Lemma gauss_range_witness : (0 < gauss 3%R 2%R <= 1)%R.
Proof. apply (gauss_range 3%R 2%R). lra. Defined.

(** X3.  The density term decreases as [|x|] grows and increases with the
    variance. *)
Theorem gauss_monotone (x y v w : R) :
  (0 < v)%R ->
  (Rabs x <= Rabs y -> gauss y v <= gauss x v)%R
  /\ (v <= w -> gauss x v <= gauss x w)%R.
Proof.
  intros Hv. rewrite !gaussR. split.
  - intros Hxy. apply exp_le.
    apply Rsqr_le_abs_1 in Hxy. unfold Rsqr in Hxy.
    assert (Hi : (0 < / (2 * v))%R) by (apply Rinv_0_lt_compat; lra).
    unfold Rdiv. nra.
  - intros Hvw. apply exp_le.
    assert (Hle : (/ (2 * w) <= / (2 * v))%R)
      by (apply Rinv_le_contravar; lra).
    pose proof (Rle_0_sqr x) as Hx. unfold Rsqr in Hx.
    unfold Rdiv. nra.
Qed.

Lemma gauss_monotone_witness : (gauss 2%R 1%R <= gauss 1%R 1%R)%R.
Proof.
  apply (gauss_monotone 1%R 2%R 1%R 1%R); [lra|].
  rewrite !Rabs_pos_eq; lra.
Defined.

(** ** The shrinkage function *)

(** X4.  The shrinkage function shrinks: for [0 < p < 1], [alpha2 >= 0],
    [xi > 0] and [tau2 <> 0], its evaluation divides by zero nowhere, and
    its value has the sign of [r] and a magnitude of at most
    [|r| * alpha2 / xi], the value of the linear estimate. *)
Theorem MMSE_shrinkage_shrinks (G : Globals R) (C : Calib R) (r tau2 : R) :
  (0 < p G < 1)%R -> (0 <= alpha2 G)%R -> (0 < xi C)%R -> tau2 <> 0%R ->
  MMSE_shrinkage (H := CheckedR) (checked_globals G) (checked_calib C)
    (Some r) (Some tau2) = Some (MMSE_shrinkage G C r tau2)
  /\ (Rabs (MMSE_shrinkage G C r tau2) <= Rabs r * alpha2 G / xi C)%R
  /\ (0 <= r -> 0 <= MMSE_shrinkage G C r tau2)%R
  /\ (r <= 0 -> MMSE_shrinkage G C r tau2 <= 0)%R.
Proof.
  intros Hp Ha Hx Hnz.
  split.
  { pose proof (mixture_pos G C r tau2 Hp) as Hd0.
    apply checked_MMSE_shrinkage; [exact Hnz|lra|lra]. }
  pose proof (mixture_pos G C r tau2 Hp) as Hd.
  pose proof (gauss_pos r tau2) as Ht.
  pose proof (gauss_pos r (xi C)) as Hg.
  set (D := ((1 - p G) * gauss r tau2 + p G * gauss r (xi C))%R) in *.
  set (w := (p G * gauss r (xi C) / D)%R).
  assert (Hw : (0 < w < 1)%R).
  { unfold w. split.
    - apply Rdiv_lt_0_compat; [|exact Hd]. apply Rmult_lt_0_compat; lra.
    - apply Rmult_lt_reg_r with D; [exact Hd|].
      unfold Rdiv. rewrite Rmult_assoc, Rinv_l by lra.
      unfold D. nra. }
  assert (Hc : (0 <= alpha2 G / xi C)%R).
  { unfold Rdiv. apply Rmult_le_pos; [exact Ha|].
    left. now apply Rinv_0_lt_compat. }
  assert (E : MMSE_shrinkage G C r tau2 = (r * (alpha2 G / xi C) * w)%R).
  { rewrite MMSE_shrinkageR. fold D. unfold w, Rdiv. ring. }
  rewrite E. repeat split.
  - rewrite !Rabs_mult.
    rewrite (Rabs_pos_eq (alpha2 G / xi C)) by exact Hc.
    rewrite (Rabs_pos_eq w) by lra.
    pose proof (Rabs_pos r) as Hr.
    replace (Rabs r * alpha2 G / xi C)%R with (Rabs r * (alpha2 G / xi C))%R
      by (unfold Rdiv; ring).
    assert (Hc' : (0 <= Rabs r * (alpha2 G / xi C))%R)
      by (apply Rmult_le_pos; assumption).
    rewrite <- (Rmult_1_r (Rabs r * (alpha2 G / xi C))) at 2.
    apply Rmult_le_compat_l; [exact Hc'|lra].
  - intros Hr. apply Rmult_le_pos; [apply Rmult_le_pos; assumption|lra].
  - intros Hr.
    assert (0 <= (- r) * (alpha2 G / xi C) * w)%R
      by (apply Rmult_le_pos; [apply Rmult_le_pos; lra|lra]).
    lra.
Qed.

Lemma MMSE_shrinkage_shrinks_witness :
  (Rabs (MMSE_shrinkage Inputs.GR Inputs.CR 3%R 1%R)
   <= Rabs 3 * alpha2 Inputs.GR / xi Inputs.CR)%R.
Proof.
  destruct (MMSE_shrinkage_shrinks Inputs.GR Inputs.CR 3%R 1%R)
    as (_ & Hb & _); [cbn; lra|cbn; lra|cbn; lra|lra|exact Hb].
Defined.

(** ** The variance estimator *)

Lemma eval_tau2_shaped {T : Type} `{Scalar T}
    (G : Globals T) (C : Calib T) (gamma : vec T)
    (t : tensor T) (i : nat) :
  i < length gamma ->
  length t = batch_size G ->
  exists tau2,
    eval_tau2 G C gamma t i = Ok tau2 /\ shaped (batch_size G) (N G) tau2.
Proof.
  intros Hi Hlen. destruct (index_in_range gamma i Hi) as [g Hg].
  rewrite (eval_tau2_rows G C gamma t i g Hg Hlen).
  eexists. split; [reflexivity|]. split.
  - rewrite length_map. unfold norm2_rows. now rewrite length_map.
  - apply Forall_map, Forall_forall. intros n _. apply repeat_length.
Qed.

(** X5.  On a residual of [batch_size] rows, [eval_tau2] returns a tensor
    of [batch_size] rows of [N] entries, and the entries of a row are all
    equal. *)
Theorem eval_tau2_shape {T : Type} `{Scalar T}
    (G : Globals T) (C : Calib T) (gamma : vec T)
    (t : tensor T) (i : nat) :
  i < length gamma ->
  length t = batch_size G ->
  exists tau2,
    eval_tau2 G C gamma t i = Ok tau2
    /\ shaped (batch_size G) (N G) tau2
    /\ Forall (fun row => exists c, row = repeat c (N G)) tau2.
Proof.
  intros Hi Hlen. destruct (index_in_range gamma i Hi) as [g Hg].
  rewrite (eval_tau2_rows G C gamma t i g Hg Hlen).
  eexists. split; [reflexivity|]. split; [split|].
  - rewrite length_map. unfold norm2_rows. now rewrite length_map.
  - apply Forall_map, Forall_forall. intros n _. apply repeat_length.
  - apply Forall_map, Forall_forall. intros n _. eexists. reflexivity.
Qed.

Lemma eval_tau2_shape_witness :
  exists tau2,
    eval_tau2 Inputs.GR Inputs.CR Inputs.gamma_half Inputs.t_zero 0 = Ok tau2
    /\ shaped 100 500 tau2.
Proof.
  destruct (eval_tau2_shape Inputs.GR Inputs.CR Inputs.gamma_half
              Inputs.t_zero 0) as (tau2 & E & Hs & _).
  - cbn. lia.
  - reflexivity.
  - exists tau2. now split.
Defined.

Section EstimatorR.
Variable G : Globals R.
Variable C : Calib R.

Lemma norm2_rows_sq (t : tensor R) :
  forall F : R -> list R,
  map (fun n => F (n * n)%R) (norm2_rows t)
  = map (fun row => F (squared_norm row)) t.
Proof.
  intros F. unfold norm2_rows. rewrite map_map. apply map_ext.
  intros row. cbn [ssqrt smul RScalar]. rewrite vsumR.
  f_equal. apply sqrt_sqrt, squared_norm_nonneg.
Qed.

Lemma eval_tau2_R (gamma : vec R) (t : tensor R) (i : nat) (g : R) :
  nth_error gamma i = Some g ->
  length t = batch_size G ->
  eval_tau2 G C gamma t i
  = Ok (map (fun row => repeat (tau2_value G C g (squared_norm row)) (N G))
            t).
Proof.
  intros Hg Hlen. rewrite (eval_tau2_rows G C gamma t i g Hg Hlen).
  f_equal.
  rewrite <- (norm2_rows_sq t
                (fun e => repeat (tau2_value G C g e) (N G))).
  apply map_ext. intros n. cbv zeta. f_equal.
  unfold tau2_value, tau2_formula, v2_value, of_nat.
  cbn [sadd ssub smul sdiv of_Z RScalar]. now rewrite <- !INR_IZR_INZ.
Qed.

Lemma error_variance_spec_R (gamma : vec R) (t : tensor R) (i : nat) (g : R) :
  nth_error gamma i = Some g ->
  length t = batch_size G ->
  error_variance_spec G C gamma t i
  = Ok (map (fun row => repeat (tau2_clamped G C g (squared_norm row)) (N G))
            t).
Proof.
  intros Hg Hlen. rewrite (error_variance_spec_rows G C gamma t i g Hg Hlen).
  f_equal.
  rewrite <- (norm2_rows_sq t
                (fun e => repeat (tau2_clamped G C g e) (N G))).
  apply map_ext. intros n. cbv zeta. f_equal.
  unfold tau2_clamped, tau2_formula, v2_value, of_nat.
  cbn [sadd ssub smul sdiv sltb of_Z lit RScalar].
  rewrite <- !INR_IZR_INZ.
  destruct (Rlt_dec _ _); reflexivity.
Qed.

(** The factor that multiplies [v2 / N] is at least [N - M]. *)
Lemma gain_factor_pos (g : R) :
  M G < N G ->
  (0 < INR (N G) + (g * g - 2 * g) * INR (M G))%R.
Proof.
  intros Hmn. apply lt_INR in Hmn.
  pose proof (pos_INR (M G)) as Hm.
  assert (Hg : (0 <= g * g - 2 * g + 1)%R).
  { replace (g * g - 2 * g + 1)%R with ((g - 1) * (g - 1))%R by ring.
    pose proof (Rle_0_sqr (g - 1)) as Hq. exact Hq. }
  pose proof (Rmult_le_pos _ _ Hg Hm) as Hp.
  replace ((g * g - 2 * g) * INR (M G))%R
    with ((g * g - 2 * g + 1) * INR (M G) - INR (M G))%R by ring.
  lra.
Qed.

Lemma tau2_formula_increasing (g v w : R) :
  M G < N G -> (v < w)%R ->
  (tau2_formula G C g v < tau2_formula G C g w)%R.
Proof.
  intros Hmn Hvw. unfold tau2_formula.
  pose proof (gain_factor_pos g Hmn) as Hf.
  assert (Hn : (0 < INR (N G))%R) by (apply lt_0_INR; lia).
  assert (Hi : (0 < / INR (N G))%R) by now apply Rinv_0_lt_compat.
  apply Rplus_lt_compat_r. apply Rmult_lt_compat_r; [exact Hf|].
  unfold Rdiv. now apply Rmult_lt_compat_r.
Qed.

Lemma tau2_formula_pos (g v : R) :
  M G < N G -> (0 <= sigma2 C)%R -> (0 <= tww G)%R -> (0 < v)%R ->
  (0 < tau2_formula G C g v)%R.
Proof.
  intros Hmn Hs Hw Hv. unfold tau2_formula.
  pose proof (gain_factor_pos g Hmn) as Hf.
  assert (Hn : (0 < INR (N G))%R) by (apply lt_0_INR; lia).
  assert (Hi : (0 < / INR (N G))%R) by now apply Rinv_0_lt_compat.
  apply Rplus_lt_le_0_compat.
  - apply Rmult_lt_0_compat; [|exact Hf].
    unfold Rdiv. now apply Rmult_lt_0_compat.
  - unfold Rdiv. apply Rmult_le_pos; [|lra].
    apply Rmult_le_pos; [|exact Hs].
    apply Rmult_le_pos; [|exact Hw].
    pose proof (Rle_0_sqr g) as Hg. unfold Rsqr in Hg. exact Hg.
Qed.

End EstimatorR.

(** X6.  Where every row of the residual has more energy than the noise
    floor [M * sigma2], the estimate is positive in every entry (for
    [M < N], [taa > 0] and nonnegative [sigma2], [tww]), whatever the gain. *)
Theorem eval_tau2_positive (G : Globals R) (C : Calib R)
    (gamma : vec R) (t : tensor R) (i : nat) :
  i < length gamma ->
  length t = batch_size G ->
  M G < N G -> (0 < taa G)%R -> (0 <= sigma2 C)%R -> (0 <= tww G)%R ->
  Forall (fun row => (INR (M G) * sigma2 C < squared_norm row)%R) t ->
  exists tau2,
    eval_tau2 G C gamma t i = Ok tau2
    /\ Forall (Forall (fun v => (0 < v)%R)) tau2.
Proof.
  intros Hi Hlen Hmn Ha Hs Hw Hrows.
  destruct (index_in_range gamma i Hi) as [g Hg].
  rewrite (eval_tau2_R G C gamma t i g Hg Hlen).
  eexists. split; [reflexivity|].
  apply Forall_map. revert Hrows. apply Forall_impl. intros row Hrow.
  apply Forall_forall. intros v Hv. apply repeat_spec in Hv. subst v.
  apply tau2_formula_pos; try assumption.
  unfold v2_value. apply Rdiv_lt_0_compat; lra.
Qed.

Lemma eval_tau2_positive_witness :
  exists tau2,
    eval_tau2 Inputs2.G22 Inputs.CR [1%R] Inputs2.t22 0 = Ok tau2
    /\ Forall (Forall (fun v => (0 < v)%R)) tau2.
Proof.
  apply (eval_tau2_positive Inputs2.G22 Inputs.CR [1%R] Inputs2.t22 0);
    try (cbn; lia); try (cbn; lra).
  unfold Inputs2.t22.
  repeat constructor; unfold squared_norm; cbn; lra.
Defined.

(** X7.  Where the clamp would not act, dropping it changes nothing: if
    every row of the residual has a squared norm of at least
    [M * sigma2 + 1e-7 * taa] (and [taa > 0]), [eval_tau2] returns what the
    estimator with the clamp in effect returns. *)
Theorem eval_tau2_agrees_above_floor (G : Globals R) (C : Calib R)
    (gamma : vec R) (t : tensor R) (i : nat) :
  (0 < taa G)%R ->
  Forall (fun row =>
            (INR (M G) * sigma2 C + 1 / 10000000 * taa G
             <= squared_norm row)%R) t ->
  eval_tau2 G C gamma t i = error_variance_spec G C gamma t i.
Proof.
  intros Ha Hrows. unfold eval_tau2, error_variance_spec.
  replace (clamp_min (lit 1 10000000)
             (map (fun n2 : R => ((n2 - of_nat (M G) * sigma2 C) / taa G)%S)
                  (pow2 (norm2_rows t))))
    with (map (fun n2 : R => ((n2 - of_nat (M G) * sigma2 C) / taa G)%S)
              (pow2 (norm2_rows t))); [reflexivity|].
  rewrite pow2_norm2_rows. unfold clamp_min. rewrite !map_map.
  apply map_ext_in. intros row Hin.
  rewrite Forall_forall in Hrows. specialize (Hrows row Hin).
  unfold of_nat. cbn [sadd ssub smul sdiv sltb of_Z lit RScalar].
  rewrite <- INR_IZR_INZ.
  destruct (Rlt_dec _ _) as [Hlt|_]; [|reflexivity].
  exfalso. apply (Rmult_lt_compat_r (taa G)) in Hlt; [|exact Ha].
  unfold Rdiv in Hlt. rewrite Rmult_assoc, Rinv_l in Hlt by lra. lra.
Qed.

Lemma eval_tau2_agrees_above_floor_witness :
  eval_tau2 Inputs2.G22 Inputs.CR [1%R] Inputs2.t22 0
  = error_variance_spec Inputs2.G22 Inputs.CR [1%R] Inputs2.t22 0.
Proof.
  apply (eval_tau2_agrees_above_floor Inputs2.G22 Inputs.CR [1%R]
           Inputs2.t22 0).
  - cbn. lra.
  - unfold Inputs2.t22.
    repeat constructor; unfold squared_norm; cbn; lra.
Defined.

(** X8.  Where the clamp would act, the value returned is too small: for a
    row whose squared norm is below [M * sigma2 + 1e-7 * taa] (with
    [taa > 0] and [M < N]) the entries [eval_tau2] returns are strictly
    below those of the estimator with the clamp in effect, whatever the
    gain. *)
Theorem eval_tau2_below_clamped (G : Globals R) (C : Calib R)
    (gamma : vec R) (t : tensor R) (i : nat) (g : R) :
  nth_error gamma i = Some g ->
  length t = batch_size G ->
  M G < N G -> (0 < taa G)%R ->
  eval_tau2 G C gamma t i
  = Ok (map (fun row => repeat (tau2_value G C g (squared_norm row)) (N G))
            t)
  /\ error_variance_spec G C gamma t i
     = Ok (map (fun row =>
                  repeat (tau2_clamped G C g (squared_norm row)) (N G)) t)
  /\ forall row,
       In row t ->
       (squared_norm row < INR (M G) * sigma2 C + 1 / 10000000 * taa G)%R ->
       (tau2_value G C g (squared_norm row)
        < tau2_clamped G C g (squared_norm row))%R.
Proof.
  intros Hg Hlen Hmn Ha.
  split; [now apply eval_tau2_R|]. split; [now apply error_variance_spec_R|].
  intros row _ Hrow. unfold tau2_value, tau2_clamped.
  assert (Hv : (v2_value G C (squared_norm row) < 1 / 10000000)%R).
  { unfold v2_value. apply (Rmult_lt_reg_r (taa G)); [exact Ha|].
    unfold Rdiv at 1. rewrite Rmult_assoc, Rinv_l by lra. lra. }
  destruct (Rlt_dec _ _) as [_|Hn]; [|contradiction].
  now apply tau2_formula_increasing.
Qed.

Lemma eval_tau2_below_clamped_witness :
  (tau2_value Inputs.GR Inputs.CR (1 / 2) (squared_norm (repeat 0%R 250))
   < tau2_clamped Inputs.GR Inputs.CR (1 / 2)
       (squared_norm (repeat 0%R 250)))%R.
Proof.
  assert (Hz : squared_norm (repeat 0%R 250) = 0%R).
  { unfold squared_norm. rewrite <- vsumR. apply (vsum_zerosR 250). }
  destruct (eval_tau2_below_clamped Inputs.GR Inputs.CR Inputs.gamma_half
              Inputs.t_zero 0 (1 / 2)%R) as (_ & _ & Hlt).
  - reflexivity.
  - reflexivity.
  - cbn. lia.
  - cbn. lra.
  - apply (Hlt (repeat 0%R 250)).
    + left. reflexivity.
    + rewrite Hz. cbn. lra.
Defined.

(** ** The forward pass *)

Section LoopExt.
Context {S : Type}.

Lemma for_range_ext (body body' : nat -> S -> result S) (start n : nat) (s : S) :
  (forall i s, start <= i < start + n -> body i s = body' i s) ->
  for_range start n body s = for_range start n body' s.
Proof.
  revert start s. induction n as [|n IH]; intros start s Hext;
    [reflexivity|].
  cbn [for_range]. rewrite (Hext start s) by lia.
  destruct (body' start s) as [s'|e]; cbn [bind]; [|reflexivity].
  apply IH. intros i s0 Hi. apply Hext. lia.
Qed.

End LoopExt.

(** X9.  Depth composes: the network with [n + 1] layers is the network
    with [n] layers followed by the layer of index [n] on its output, and an
    exception of the first [n] layers is the exception of the whole. *)
Theorem forward_succ {T : Type} `{Scalar T}
    (G : Globals T) (C : Calib T) (gamma : vec T)
    (x s noise : tensor T) (n : nat) :
  forward G C gamma x s noise (S n)
  = s' <- forward G C gamma x s noise n ;;
    layer G C gamma (tadd (mm x (At G)) noise) n s'.
Proof.
  unfold forward. now rewrite for_range_last.
Qed.

Section Prefix.
Context {T : Type} `{Scalar T}.
Variable G : Globals T.
Variable C : Calib T.

Lemma index_prefix (gamma gamma' : vec T) (n i : nat) :
  firstn n gamma = firstn n gamma' -> i < n ->
  index gamma i = index gamma' i.
Proof.
  intros Hpre Hi. unfold index.
  pose proof (nth_error_firstn n gamma i) as E.
  pose proof (nth_error_firstn n gamma' i) as E'.
  apply Nat.ltb_lt in Hi. rewrite Hi in E, E'.
  now rewrite <- E, <- E', Hpre.
Qed.

Lemma layer_prefix (gamma gamma' : vec T) (n i : nat) (y s : tensor T) :
  firstn n gamma = firstn n gamma' -> i < n ->
  layer G C gamma y i s = layer G C gamma' y i s.
Proof.
  intros Hpre Hi. unfold layer, eval_tau2.
  now rewrite (index_prefix gamma gamma' n i Hpre Hi).
Qed.

End Prefix.

(** X10.  A network of depth [max_itr] reads [gamma[0 .. max_itr - 1]] and
    nothing else of [gamma]: two parameter vectors that agree on their
    first [max_itr] entries give the same result, tensor or exception. *)
Theorem forward_reads_prefix {T : Type} `{Scalar T}
    (G : Globals T) (C : Calib T) (gamma gamma' : vec T)
    (x s noise : tensor T) (max_itr : nat) :
  firstn max_itr gamma = firstn max_itr gamma' ->
  forward G C gamma x s noise max_itr = forward G C gamma' x s noise max_itr.
Proof.
  intros Hpre. unfold forward. apply for_range_ext.
  intros i s0 Hi. apply (layer_prefix G C gamma gamma' max_itr); [exact Hpre|lia].
Qed.

Lemma forward_reads_prefix_witness :
  forward Inputs.GR Inputs.CR (repeat 1%R 20)
    Inputs.t_zero Inputs.t_zero Inputs.t_zero 2
  = forward Inputs.GR Inputs.CR [1%R; 1%R; 7%R]
      Inputs.t_zero Inputs.t_zero Inputs.t_zero 2.
Proof.
  apply (forward_reads_prefix Inputs.GR Inputs.CR (repeat 1%R 20)
           [1%R; 1%R; 7%R]).
  reflexivity.
Defined.

(** *** Shapes *)

Section Shapes.
Context {T : Type} `{Scalar T}.

Lemma map2_length {A B D} (f : A -> B -> D) (l : list A) (l' : list B) :
  length (map2 f l l') = Nat.min (length l) (length l').
Proof.
  revert l'. induction l as [|a l IH]; intros [|b l']; cbn [map2 length];
    try reflexivity.
  now rewrite IH.
Qed.

Lemma map2_Forall {A B D} (P : A -> Prop) (Q : B -> Prop) (R : D -> Prop)
    (f : A -> B -> D) (l : list A) (l' : list B) :
  (forall a b, P a -> Q b -> R (f a b)) ->
  Forall P l -> Forall Q l' -> Forall R (map2 f l l').
Proof.
  intros Hf Hl. revert l'.
  induction Hl as [|a l Ha Hl IH]; intros l' Hl'; [constructor|].
  destruct Hl' as [|b l' Hb Hl']; cbn [map2]; constructor; auto.
Qed.

Lemma tmap2_shaped (f : T -> T -> T) (rows cols : nat) (a b : tensor T) :
  shaped rows cols a -> shaped rows cols b -> shaped rows cols (tmap2 f a b).
Proof.
  intros [La Ha] [Lb Hb]. split.
  - unfold tmap2. rewrite map2_length. lia.
  - unfold tmap2.
    apply (map2_Forall (fun r => length r = cols) (fun r => length r = cols));
      try assumption.
    intros r r' Hr Hr'. rewrite map2_length. lia.
Qed.

Lemma tscale_shaped (rows cols : nat) (a : tensor T) (c : T) :
  shaped rows cols a -> shaped rows cols (tscale a c).
Proof.
  intros [La Ha]. unfold tscale, tmap. split.
  - now rewrite length_map.
  - apply Forall_map. revert Ha. apply Forall_impl.
    intros r Hr. now rewrite length_map.
Qed.

Lemma transpose_length (n : nat) (b : tensor T) :
  Forall (fun r => length r = n) b -> length (transpose n b) = n.
Proof.
  unfold transpose. induction 1 as [|r b Hr Hb IH]; cbn [fold_right].
  - apply repeat_length.
  - rewrite map2_length, IH. lia.
Qed.

Lemma mm_shaped (rows k cols : nat) (a b : tensor T) :
  0 < k -> shaped rows k a -> shaped k cols b -> shaped rows cols (mm a b).
Proof.
  intros Hk [La _] [Lb Hb]. unfold mm. split.
  - now rewrite length_map.
  - apply Forall_map, Forall_forall. intros row _.
    rewrite length_map.
    destruct b as [|r b]; [cbn in Lb; lia|].
    cbn [ncols]. pose proof (Forall_inv Hb) as Hr. cbn beta in Hr.
    rewrite Hr. now apply transpose_length.
Qed.

Lemma zeros_shaped (rows cols : nat) : shaped rows cols (zeros rows cols).
Proof.
  unfold zeros. split; [apply repeat_length|].
  apply Forall_forall. intros r Hr. apply repeat_spec in Hr. subst r.
  apply repeat_length.
Qed.

Variable G : Globals T.
Variable C : Calib T.
Variable gamma : vec T.

Hypothesis N_pos : 0 < N G.
Hypothesis M_pos : 0 < M G.
Hypothesis At_shape : shaped (N G) (M G) (At G).
Hypothesis Wt_shape : shaped (M G) (N G) (Wt G).

Lemma layer_shaped (y s : tensor T) (i : nat) :
  i < length gamma ->
  shaped (batch_size G) (M G) y ->
  shaped (batch_size G) (N G) s ->
  exists s', layer G C gamma y i s = Ok s'
             /\ shaped (batch_size G) (N G) s'.
Proof.
  intros Hi Hy Hs. unfold layer.
  set (t := tsub y (mm s (At G))).
  assert (Ht : shaped (batch_size G) (M G) t).
  { apply tmap2_shaped; [exact Hy|].
    now apply (mm_shaped (batch_size G) (N G) (M G)). }
  destruct (eval_tau2_shaped G C gamma t i Hi (proj1 Ht))
    as (tau2 & -> & Htau).
  destruct (index_in_range gamma i Hi) as [g Hg].
  cbn [bind]. rewrite (index_ok gamma i g Hg). cbn [bind].
  eexists. split; [reflexivity|].
  apply tmap2_shaped; [|exact Htau].
  apply tmap2_shaped; [exact Hs|].
  apply tscale_shaped.
  now apply (mm_shaped (batch_size G) (M G) (N G)).
Qed.

Lemma forward_shaped (x s noise : tensor T) (max_itr : nat) :
  max_itr <= length gamma ->
  shaped (batch_size G) (N G) x ->
  shaped (batch_size G) (N G) s ->
  shaped (batch_size G) (M G) noise ->
  exists out, forward G C gamma x s noise max_itr = Ok out
              /\ shaped (batch_size G) (N G) out.
Proof.
  intros Hle Hx Hs Hn. unfold forward.
  assert (Hy : shaped (batch_size G) (M G) (tadd (mm x (At G)) noise)).
  { apply tmap2_shaped; [|exact Hn].
    now apply (mm_shaped (batch_size G) (N G) (M G)). }
  destruct (for_range_invariant
              (layer G C gamma (tadd (mm x (At G)) noise))
              (fun _ s' => shaped (batch_size G) (N G) s')
              0 max_itr s) as (out & E & Hout).
  - intros i s' Hi Hs'. apply layer_shaped; [lia|exact Hy|exact Hs'].
  - exact Hs.
  - now exists out.
Qed.

End Shapes.

(** X11.  Shapes are kept: with [At] of shape N x M and [Wt] of shape M x N
    (N, M positive), a signal batch and an initial estimate of shape
    [batch_size] x N and a noise draw of shape [batch_size] x M, a network
    of depth at most [length gamma] returns an estimate of shape
    [batch_size] x N. *)
Theorem forward_keeps_shape {T : Type} `{Scalar T}
    (G : Globals T) (C : Calib T) (gamma : vec T)
    (x s noise : tensor T) (max_itr : nat) :
  0 < N G -> 0 < M G ->
  shaped (N G) (M G) (At G) -> shaped (M G) (N G) (Wt G) ->
  max_itr <= length gamma ->
  shaped (batch_size G) (N G) x ->
  shaped (batch_size G) (N G) s ->
  shaped (batch_size G) (M G) noise ->
  exists out, forward G C gamma x s noise max_itr = Ok out
              /\ shaped (batch_size G) (N G) out.
Proof.
  intros. now apply forward_shaped.
Qed.

Lemma forward_keeps_shape_witness :
  exists out,
    forward Inputs2.G22 Inputs.CR [1%R; 1%R]
      Inputs2.nonzero22 (s_zero Inputs2.G22) (zeros 2 1) 2 = Ok out
    /\ shaped 2 2 out.
Proof.
  apply (forward_keeps_shape Inputs2.G22 Inputs.CR [1%R; 1%R]
           Inputs2.nonzero22 (s_zero Inputs2.G22) (zeros 2 1) 2);
    try (cbn; lia);
    try (split; [reflexivity|repeat constructor]).
Defined.

(** ** The training loop, further *)

Section TrainingEffects.
Context {T : Type} `{Scalar T}.
Variable G : Globals T.
Variable E : Env T.
Variable C : Calib T.

Lemma network_raise (ph : phase) (gen : nat) (st : state E) :
  length (gamma st) < gen + 1 ->
  network G C ph gen st = Raise (IndexError (length (gamma st))).
Proof.
  intros Hlt. unfold network, run_network. now rewrite forward_raise.
Qed.

Lemma eval_batch_effect (gen i : nat) (a : state E * T) :
  gen + 1 <= length (gamma (fst a)) ->
  exists a',
    eval_batch G C gen i a = Ok a'
    /\ gamma (fst a') = gamma (fst a)
    /\ opt (fst a') = opt (fst a)
    /\ draws (fst a') = S (draws (fst a))
    /\ printed (fst a') = printed (fst a).
Proof.
  destruct a as [st nmse_sum]. cbn [fst]. intros Hlen. unfold eval_batch.
  destruct (network_ok G E C Eval gen st Hlen)
    as (x & x_hat & st1 & -> & Hg & Ho & Hd & _ & Hp).
  cbn [bind]. eexists. split; [reflexivity|]. cbn [fst]. now repeat split.
Qed.

Lemma eval_loop_effect (gen n : nat) (a : state E * T) :
  gen + 1 <= length (gamma (fst a)) ->
  exists a',
    for_range 0 n (eval_batch G C gen) a = Ok a'
    /\ gamma (fst a') = gamma (fst a)
    /\ opt (fst a') = opt (fst a)
    /\ draws (fst a') = draws (fst a) + n
    /\ printed (fst a') = printed (fst a).
Proof.
  intros Hlen.
  destruct (for_range_invariant (eval_batch G C gen)
              (fun k a' => gamma (fst a') = gamma (fst a)
                           /\ opt (fst a') = opt (fst a)
                           /\ draws (fst a') = draws (fst a) + k
                           /\ printed (fst a') = printed (fst a))
              0 n a) as (a' & Ea & Hinv).
  - intros k b _ (Hg & Ho & Hd & Hp).
    destruct (eval_batch_effect gen k b) as (b' & Eb & Hg' & Ho' & Hd' & Hp').
    { now rewrite Hg. }
    exists b'. split; [exact Eb|].
    rewrite Hg', Ho', Hd', Hp'. repeat split; try assumption. lia.
  - repeat split. lia.
  - exists a'. split; [exact Ea|]. exact Hinv.
Qed.

(** A generation whose depth exceeds the number of parameters raises at its
    first forward pass. *)
Lemma generation_raise (gen : nat) (st : state E) :
  length (gamma st) < gen + 1 ->
  generation G C gen st = Raise (IndexError (length (gamma st))).
Proof.
  intros Hlt. unfold generation.
  destruct (num_batch G) as [|nb].
  - change (for_range 0 0 (train_batch G C gen) st) with (Ok st).
    cbn [bind].
    rewrite (for_range_raise (eval_batch G C gen) 0 10 0 (st, zero)
               (st, zero) (IndexError (length (gamma st))));
      [reflexivity|lia|reflexivity|].
    unfold eval_batch. now rewrite network_raise.
  - cbn [for_range]. unfold train_batch at 1. now rewrite network_raise.
Qed.

Section LengthKept.
Hypothesis opt_step_length : forall o g gr,
  length (snd (opt_step E o g gr)) = length g.

Lemma train_loop_effect (gen n : nat) (st : state E) :
  gen + 1 <= length (gamma st) ->
  exists st',
    for_range 0 n (train_batch G C gen) st = Ok st'
    /\ length (gamma st') = length (gamma st)
    /\ draws st' = draws st + n
    /\ printed st' = printed st.
Proof.
  intros Hlen.
  destruct (for_range_invariant (train_batch G C gen)
              (fun k s => length (gamma s) = length (gamma st)
                          /\ draws s = draws st + k
                          /\ printed s = printed st)
              0 n st) as (st' & Es & Hinv).
  - intros k s _ (Hl & Hd & Hp).
    destruct (train_batch_cases G E C gen k s)
      as (s' & Es & _ & Hd' & Hp' & _ & _); [lia|].
    destruct (train_batch_ok G E C opt_step_length gen k s)
      as (s'' & Es' & Hl' & _); [lia|].
    rewrite Es in Es'. injection Es' as <-.
    exists s'. split; [exact Es|].
    rewrite Hl', Hd', Hp'. repeat split; try assumption. lia.
  - repeat split. lia.
  - exists st'. split; [exact Es|]. exact Hinv.
Qed.

Lemma generation_effect (gen : nat) (st : state E) :
  gen + 1 <= length (gamma st) ->
  exists st',
    generation G C gen st = Ok st'
    /\ length (gamma st') = length (gamma st)
    /\ draws st' = draws st + num_batch G + 10
    /\ map fst (printed st') = map fst (printed st) ++ [gen + 1].
Proof.
  intros Hlen. unfold generation.
  destruct (train_loop_effect gen (num_batch G) st Hlen)
    as (st1 & -> & Hl1 & Hd1 & Hp1).
  cbn [bind].
  destruct (eval_loop_effect gen 10 (st1, zero))
    as ([st2 nmse_sum] & -> & Hg2 & _ & Hd2 & Hp2).
  { cbn [fst]. lia. }
  cbn [bind fst] in *. eexists. split; [reflexivity|]. cbn.
  rewrite Hg2, Hd2, Hp2, Hd1, Hp1, map_app. repeat split. exact Hl1.
Qed.

Lemma generations_effect (n : nat) :
  n <= length (gamma_init E) ->
  exists st,
    for_range 0 n (generation G C) (init_state E) = Ok st
    /\ length (gamma st) = length (gamma_init E)
    /\ draws st = n * (num_batch G + 10)
    /\ map fst (printed st) = seq 1 n.
Proof.
  intros Hn.
  destruct (for_range_invariant (generation G C)
              (fun g s => length (gamma s) = length (gamma_init E)
                          /\ draws s = g * (num_batch G + 10)
                          /\ map fst (printed s) = seq 1 g)
              0 n (init_state E)) as (st & Es & Hinv).
  - intros g s Hg (Hl & Hd & Hp).
    destruct (generation_effect g s) as (s' & Es & Hl' & Hd' & Hp'); [lia|].
    exists s'. split; [exact Es|].
    rewrite Hl', Hd', Hp', Hd, Hp, seq_S. repeat split; try assumption.
    + lia.
    + do 2 f_equal. lia.
  - now repeat split.
  - exists st. split; [exact Es|]. exact Hinv.
Qed.

End LengthKept.

(** With a gradient that always has a NaN coordinate, nothing is learnt. *)
Section AlwaysNaN.
Hypothesis always_nan : forall loss,
  existsb (isnan (H := H)) (autograd E loss (gamma_init E)) = true.



End AlwaysNaN.

End TrainingEffects.

(** X12.  The evaluation passes do not train: after any number of
    evaluation batches [gamma] and the optimizer's state are what they were,
    and one batch has been drawn per pass. *)
Theorem eval_loop_keeps_parameters {T : Type} `{Scalar T}
    (G : Globals T) (E : Env T) (C : Calib T)
    (gen n : nat) (st : state E) (nmse_sum : T) :
  gen + 1 <= length (gamma st) ->
  exists st' nmse_sum',
    for_range 0 n (eval_batch G C gen) (st, nmse_sum) = Ok (st', nmse_sum')
    /\ gamma st' = gamma st
    /\ opt st' = opt st
    /\ draws st' = draws st + n.
Proof.
  intros Hlen.
  destruct (eval_loop_effect G E C gen n (st, nmse_sum) Hlen)
    as ([st' acc] & Es & Hg & Ho & Hd & _).
  exists st', acc. now repeat split.
Qed.

Lemma eval_loop_keeps_parameters_witness :
  exists st' nmse_sum',
    for_range 0 10 (eval_batch Inputs2.G22 Inputs.CR 0)
      (init_state Inputs2.ER, 0%R) = Ok (st', nmse_sum')
    /\ gamma st' = repeat 1%R 20.
Proof.
  destruct (eval_loop_keeps_parameters Inputs2.G22 Inputs2.ER Inputs.CR
              0 10 (init_state Inputs2.ER) 0%R)
    as (st' & acc & Es & Hg & _).
  - cbn. lia.
  - exists st', acc. now split.
Defined.



Lemma descendR_length (lr : R) (g gr : vec R) :
  length (Inputs2.descendR lr g gr) = length g.
Proof.
  revert gr. induction g as [|x g IH]; intros gr;
    cbn [Inputs2.descendR length]; [reflexivity|].
  now rewrite IH.
Qed.

Section OverDeep.
Context {T : Type} `{Scalar T}.
Variable G : Globals T.
Variable E : Env T.
Variable C : Calib T.

Lemma train_batch_raise (gen i : nat) (st : state E) :
  length (gamma st) < gen + 1 ->
  train_batch G C gen i st = Raise (IndexError (length (gamma st))).
Proof.
  intros Hlt. unfold train_batch. now rewrite network_raise.
Qed.

Lemma eval_batch_raise (gen i : nat) (st : state E) (nmse_sum : T) :
  length (gamma st) < gen + 1 ->
  eval_batch G C gen i (st, nmse_sum)
  = Raise (IndexError (length (gamma st))).
Proof.
  intros Hlt. unfold eval_batch. now rewrite network_raise.
Qed.

End OverDeep.

(** X14.  A run with fewer parameters than generations does not clamp the
    depth.  With [n = length gamma]: the generations 0 to [n - 1] are
    trained and reported; then the first forward pass of generation [n], on
    the next batch drawn, raises the index error of [gamma[n]], so the
    first mini-batch of that generation raises it (the first evaluation
    batch, if there are no mini-batches), and so does the run.  (The
    optimizer returns as many parameters as it is given.) *)
Theorem training_needs_enough_layers {T : Type} `{Scalar T}
    (G : Globals T) (E : Env T) (C : Calib T) :
  (forall o g gr, length (snd (opt_step E o g gr)) = length g) ->
  length (gamma_init E) < num_generations G ->
  exists sk : state E,
    for_range 0 (length (gamma_init E)) (generation G C) (init_state E)
    = Ok sk
    /\ length (gamma sk) = length (gamma_init E)
    /\ map fst (printed sk) = seq 1 (length (gamma_init E))
    /\ draws sk = length (gamma_init E) * (num_batch G + 10)
    /\ forward G C (gamma sk) (generate_batch E (draws sk)) (s_zero G)
         (noise E (draws sk)) (length (gamma_init E) + 1)
       = Raise (IndexError (length (gamma_init E)))
    /\ (0 < num_batch G ->
        train_batch G C (length (gamma_init E)) 0 sk
        = Raise (IndexError (length (gamma_init E))))
    /\ (num_batch G = 0 ->
        eval_batch G C (length (gamma_init E)) 0 (sk, zero)
        = Raise (IndexError (length (gamma_init E))))
    /\ generation G C (length (gamma_init E)) sk
       = Raise (IndexError (length (gamma_init E)))
    /\ training G E C = Raise (IndexError (length (gamma_init E))).
Proof.
  intros Hstep Hlt.
  destruct (generations_effect G E C Hstep (length (gamma_init E)) (le_n _))
    as (sk & Ek & Hl & Hd & Hp).
  assert (Hdeep : length (gamma sk) < length (gamma_init E) + 1) by lia.
  assert (Hgen : generation G C (length (gamma_init E)) sk
                 = Raise (IndexError (length (gamma_init E)))).
  { rewrite <- Hl at 2. now apply generation_raise. }
  exists sk. repeat split; try assumption.
  - rewrite <- Hl at 2. apply forward_raise. lia.
  - intros _. rewrite <- Hl at 2. now apply train_batch_raise.
  - intros _. rewrite <- Hl at 2. now apply eval_batch_raise.
  - unfold training.
    now apply (for_range_raise (generation G C) 0 (num_generations G)
                 (length (gamma_init E)) (init_state E) sk _ Hlt Ek).
Qed.

Lemma training_needs_enough_layers_witness :
  training Inputs2.G22 Inputs2.ER_short Inputs.CR = Raise (IndexError 5)
  /\ exists sk : state Inputs2.ER_short,
       train_batch Inputs2.G22 Inputs.CR 5 0 sk = Raise (IndexError 5).
Proof.
  destruct (training_needs_enough_layers Inputs2.G22 Inputs2.ER_short
              Inputs.CR) as (sk & _ & _ & _ & _ & _ & Htb & _ & _ & Ht).
  - intros o g gr. apply descendR_length.
  - cbn. lia.
  - split; [exact Ht|]. exists sk. apply Htb. cbn. lia.
Defined.

(** X15.  A run with enough parameters prints one NMSE line per generation,
    labelled 1, 2, ..., [num_generations] in this order, draws
    [num_batch + 10] batches per generation, and keeps the number of
    parameters. *)
Theorem training_reports {T : Type} `{Scalar T}
    (G : Globals T) (E : Env T) (C : Calib T) :
  (forall o g gr, length (snd (opt_step E o g gr)) = length g) ->
  num_generations G <= length (gamma_init E) ->
  exists st,
    training G E C = Ok st
    /\ map fst (printed st) = seq 1 (num_generations G)
    /\ draws st = num_generations G * (num_batch G + 10)
    /\ length (gamma st) = length (gamma_init E).
Proof.
  intros Hstep Hle.
  destruct (generations_effect G E C Hstep (num_generations G) Hle)
    as (st & Es & Hl & Hd & Hp).
  exists st. now repeat split.
Qed.

Lemma training_reports_witness :
  exists st,
    training Inputs2.G22 Inputs2.ER Inputs.CR = Ok st
    /\ map fst (printed st) = seq 1 15
    /\ draws st = 15 * (200 + 10).
Proof.
  destruct (training_reports Inputs2.G22 Inputs2.ER Inputs.CR)
    as (st & Es & Hp & Hd & _).
  - intros o g gr. apply descendR_length.
  - cbn. lia.
  - exists st. now repeat split.
Defined.

(** ** The SNR calculation, further *)

Lemma sumR_nonneg (l : list R) :
  Forall (fun x => (0 <= x)%R) l -> (0 <= sumR l)%R.
Proof.
  induction 1 as [|x l Hx Hl IH]; cbn [sumR fold_right]; [lra|].
  unfold sumR in IH. lra.
Qed.

Lemma calibration_energy_nonneg (G : Globals R) (E : Env R) :
  (0 <= calibration_energy G E)%R.
Proof.
  unfold calibration_energy. apply sumR_nonneg, Forall_map, Forall_forall.
  intros i _. apply sumR_nonneg, Forall_map, Forall_forall.
  intros row _. apply squared_norm_nonneg.
Qed.

Lemma calibrate_sigma2_eq (G : Globals R) (E : Env R) :
  sigma2 (calibrate G E)
  = (calibration_energy G E * / (100 * INR (batch_size G))
     * / (INR (M G) * Rpower 10 (snr G / 10)))%R.
Proof.
  unfold calibrate. cbn [sigma2]. rewrite calib_sumR.
  unfold of_nat. cbn [sdiv smul spow of_Z RScalar].
  now rewrite <- !INR_IZR_INZ.
Qed.

Lemma calibrate_sigma2_nonneg (G : Globals R) (E : Env R) :
  0 < M G -> 0 < batch_size G -> (0 <= sigma2 (calibrate G E))%R.
Proof.
  intros HM HB.
  rewrite calibrate_sigma2_eq.
  pose proof (calibration_energy_nonneg G E) as He.
  apply lt_0_INR in HM. apply lt_0_INR in HB.
  assert (Hr : (0 < Rpower 10 (snr G / 10))%R) by apply exp_pos.
  apply Rmult_le_pos.
  - apply Rmult_le_pos; [exact He|].
    left. apply Rinv_0_lt_compat. nra.
  - left. apply Rinv_0_lt_compat. nra.
Qed.

(** X16.  The calibrated noise variance is never negative, [xi] is at least
    [alpha2], and [sigma_std] squares to [sigma2] (for positive [M] and
    [batch_size]). *)
Theorem calibrate_ranges (G : Globals R) (E : Env R) :
  0 < M G -> 0 < batch_size G ->
  (0 <= sigma2 (calibrate G E))%R
  /\ (alpha2 G <= xi (calibrate G E))%R
  /\ (sigma_std (calibrate G E) * sigma_std (calibrate G E)
      = sigma2 (calibrate G E))%R.
Proof.
  intros HM HB.
  pose proof (calibrate_sigma2_nonneg G E HM HB) as Hs.
  split; [exact Hs|]. split.
  - change (xi (calibrate G E)) with (alpha2 G + sigma2 (calibrate G E))%R.
    lra.
  - change (sigma_std (calibrate G E)) with (sqrt (sigma2 (calibrate G E))).
    now apply sqrt_sqrt.
Qed.

Lemma calibrate_ranges_witness :
  (alpha2 Inputs2.G22 <= xi (calibrate Inputs2.G22 Inputs2.ER))%R.
Proof.
  apply (calibrate_ranges Inputs2.G22 Inputs2.ER); cbn; lia.
Defined.

(** X17.  Calibration meets what the shrinkage function needs: with
    [alpha2 > 0] and [0 < p < 1], under the calibrated [xi] the evaluation
    of [MMSE_shrinkage] at any [r] and any [tau2 > 0] divides by zero
    nowhere. *)
Theorem calibrated_shrinkage_defined (G : Globals R) (E : Env R) (r tau2 : R) :
  0 < M G -> 0 < batch_size G ->
  (0 < alpha2 G)%R -> (0 < p G < 1)%R -> (0 < tau2)%R ->
  MMSE_shrinkage (H := CheckedR) (checked_globals G)
    (checked_calib (calibrate G E)) (Some r) (Some tau2)
  = Some (MMSE_shrinkage G (calibrate G E) r tau2).
Proof.
  intros HM HB Ha Hp Ht.
  pose proof (calibrate_sigma2_nonneg G E HM HB) as Hs.
  assert (Hx : (0 < xi (calibrate G E))%R).
  { change (xi (calibrate G E)) with (alpha2 G + sigma2 (calibrate G E))%R.
    lra. }
  pose proof (mixture_pos G (calibrate G E) r tau2 Hp) as Hd.
  apply checked_MMSE_shrinkage; lra.
Qed.

Lemma calibrated_shrinkage_defined_witness :
  MMSE_shrinkage (H := CheckedR) (checked_globals Inputs2.G22)
    (checked_calib (calibrate Inputs2.G22 Inputs2.ER)) (Some 3%R) (Some 1%R)
  = Some (MMSE_shrinkage Inputs2.G22 (calibrate Inputs2.G22 Inputs2.ER)
            3%R 1%R).
Proof.
  apply (calibrated_shrinkage_defined Inputs2.G22 Inputs2.ER 3%R 1%R);
    try (cbn; lia); cbn; lra.
Defined.

(** ** The loss *)

Lemma map2_ext_Forall {A B D} (f f' : A -> B -> D) (P : B -> Prop)
    (l : list A) (l' : list B) :
  (forall a b, P b -> f a b = f' a b) ->
  Forall P l' -> map2 f l l' = map2 f' l l'.
Proof.
  intros Hf Hl'. revert l.
  induction Hl' as [|b l' Hb Hl' IH]; intros [|a l]; cbn [map2];
    try reflexivity.
  now rewrite Hf, IH.
Qed.

Lemma map2_sym {A D} (f : A -> A -> D) (l l' : list A) :
  (forall a b, f a b = f b a) -> map2 f l l' = map2 f l' l.
Proof.
  intros Hf. revert l'.
  induction l as [|a l IH]; intros [|b l']; cbn [map2]; try reflexivity.
  now rewrite Hf, IH.
Qed.

Lemma map2_diag {A D} (f : A -> A -> D) (l : list A) :
  map2 f l l = map (fun a => f a a) l.
Proof.
  induction l as [|a l IH]; cbn [map2 map]; [reflexivity|]. now rewrite IH.
Qed.

Lemma sumR_app (l l' : list R) : sumR (l ++ l') = (sumR l + sumR l')%R.
Proof.
  unfold sumR. induction l as [|x l IH]; cbn [app fold_right]; [ring|].
  rewrite IH. ring.
Qed.

Lemma squares_nonneg (a b : tensor R) :
  Forall (fun x => (0 <= x)%R)
    (concat (tmap2 (fun u v => ((u - v) * (u - v))%S) a b)).
Proof.
  apply Forall_concat. unfold tmap2.
  apply (map2_Forall (fun _ => True) (fun _ => True)).
  - intros r r' _ _.
    apply (map2_Forall (fun _ => True) (fun _ => True)).
    + intros u v _ _. cbn [ssub smul RScalar].
      pose proof (Rle_0_sqr (u - v)) as Hq. exact Hq.
    + apply Forall_forall. auto.
    + apply Forall_forall. auto.
  - apply Forall_forall. auto.
  - apply Forall_forall. auto.
Qed.

(** X18.  The loss is never negative, does not depend on the order of its
    two arguments, and is zero when the estimate is the target. *)
Theorem mse_loss_facts (a b : tensor R) :
  (0 <= mse_loss a b)%R
  /\ mse_loss a b = mse_loss b a
  /\ mse_loss a a = 0%R.
Proof.
  split; [|split].
  - unfold mse_loss. cbv zeta. cbn [sdiv RScalar]. rewrite vsumR.
    pose proof (sumR_nonneg _ (squares_nonneg a b)) as Hs.
    remember (concat (tmap2 (fun u v => ((u - v) * (u - v))%S) a b)) as d
      eqn:Ed.
    clear Ed.
    unfold of_nat. cbn [of_Z RScalar]. rewrite <- INR_IZR_INZ.
    destruct d as [|x d].
    + cbn [sumR fold_right]. unfold Rdiv. lra.
    + apply Rmult_le_pos; [exact Hs|].
      left. apply Rinv_0_lt_compat, lt_0_INR. cbn. lia.
  - unfold mse_loss. cbv zeta.
    replace (tmap2 (fun u v => ((u - v) * (u - v))%S) a b)
      with (tmap2 (fun u v => ((u - v) * (u - v))%S) b a); [reflexivity|].
    unfold tmap2. apply map2_sym. intros r r'. apply map2_sym.
    intros u v. cbn [ssub smul RScalar]. ring.
  - unfold mse_loss. cbv zeta. cbn [sdiv RScalar]. rewrite vsumR.
    replace (sumR (concat (tmap2 (fun u v => ((u - v) * (u - v))%S) a a)))
      with 0%R; [unfold Rdiv; ring|].
    symmetry. unfold tmap2. rewrite map2_diag.
    induction a as [|r a IH]; cbn [map concat]; [reflexivity|].
    rewrite map2_diag.
    rewrite sumR_app, IH.
    assert (Hz : sumR (map (fun a0 : R => ((a0 - a0) * (a0 - a0))%S) r) = 0%R).
    { unfold sumR.
      induction r as [|x r IHr]; cbn [map fold_right]; [reflexivity|].
      rewrite IHr. cbn [ssub smul RScalar]. ring. }
    rewrite Hz. ring.
Qed.

(** ** The mini-batch generator *)

(** X19.  The generated batch is the Gaussian draw masked by the support:
    where the support is 0 the entry is 0, where it is 1 the entry is the
    draw.  The batch has the shape of its two draws. *)
Theorem generate_batch_masks (rows cols : nat) (support nonzero : tensor R) :
  Forall (Forall (fun s => s = 0%R \/ s = 1%R)) support ->
  shaped rows cols support -> shaped rows cols nonzero ->
  generate_batch_from support nonzero
  = tmap2 (fun z s => if Req_dec_T s 0 then 0%R else z) nonzero support
  /\ shaped rows cols (generate_batch_from support nonzero).
Proof.
  intros Hsup Hs Hz. split.
  - unfold generate_batch_from, tmap2.
    apply (map2_ext_Forall _ _ (Forall (fun s => s = 0%R \/ s = 1%R)));
      [|exact Hsup].
    intros zrow srow Hsrow.
    apply (map2_ext_Forall _ _ (fun s => s = 0%R \/ s = 1%R));
      [|exact Hsrow].
    intros z s [-> | ->]; cbn [smul RScalar].
    + destruct (Req_dec_T 0 0) as [_|Hn]; [ring|now elim Hn].
    + destruct (Req_dec_T 1 0) as [Hn|_]; [lra|ring].
  - unfold generate_batch_from. now apply tmap2_shaped.
Qed.

Lemma generate_batch_masks_witness :
  generate_batch_from Inputs2.support22 Inputs2.nonzero22
  = tmap2 (fun z s => if Req_dec_T s 0 then 0%R else z)
      Inputs2.nonzero22 Inputs2.support22.
Proof.
  apply (generate_batch_masks 2 2 Inputs2.support22 Inputs2.nonzero22).
  - unfold Inputs2.support22.
    repeat (apply Forall_cons || apply Forall_nil); auto.
  - split; [reflexivity|repeat constructor].
  - split; [reflexivity|repeat constructor].
Defined.

(** ** The traces of the module level *)

Section Gram.
Context {T : Type} `{Scalar T}.
Local Open Scope scalar_scope.

Lemma trace_from_gram (f : list T -> list T -> T) (pre suf : tensor T) :
  trace_from (length pre) (map (fun r => map (f r) (pre ++ suf)) suf)
  = fold_right (fun r acc => f r r + acc) zero suf.
Proof.
  revert pre. induction suf as [|r suf IH]; intros pre; [reflexivity|].
  cbn [map trace_from fold_right].
  rewrite nth_error_map, nth_error_app2, Nat.sub_diag by lia.
  cbn [nth_error option_map]. f_equal.
  specialize (IH (pre ++ [r])).
  rewrite length_app, Nat.add_1_r, <- app_assoc in IH. exact IH.
Qed.

Lemma trace_gram (f : list T -> list T -> T) (L : tensor T) :
  trace (map (fun r => map (f r) L) L)
  = fold_right (fun r acc => f r r + acc) zero L.
Proof. apply (trace_from_gram f [] L). Qed.

Lemma transpose_map2_cons (k : nat) (r : list T) (m : tensor T) :
  length r = length m ->
  transpose (S k) (map2 cons r m) = r :: transpose k m.
Proof.
  revert r. induction m as [|c m IH]; intros [|x r] Hlen;
    try discriminate; [reflexivity|].
  cbn [map2]. unfold transpose in *. cbn [fold_right].
  rewrite IH by (cbn in Hlen; lia). reflexivity.
Qed.

Lemma transpose_nil_rows (n : nat) :
  transpose 0 (repeat (@nil T) n) = [].
Proof.
  unfold transpose. induction n as [|n IH]; [reflexivity|].
  cbn [repeat fold_right]. reflexivity.
Qed.

Lemma transpose_involutive (n : nat) (a : tensor T) :
  Forall (fun r => length r = n) a ->
  transpose (length a) (transpose n a) = a.
Proof.
  induction 1 as [|r a Hr Ha IH].
  - apply transpose_nil_rows.
  - change (transpose n (r :: a)) with (map2 cons r (transpose n a)).
    cbn [length].
    rewrite transpose_map2_cons by (rewrite transpose_length; auto).
    now rewrite IH.
Qed.

Lemma transpose_rows (n : nat) (a : tensor T) :
  Forall (fun c => length c = length a) (transpose n a).
Proof.
  induction a as [|r a IH].
  - unfold transpose. cbn [fold_right length].
    apply Forall_forall. intros c Hc. now apply repeat_spec in Hc; subst c.
  - change (transpose n (r :: a)) with (map2 cons r (transpose n a)).
    apply (map2_Forall (fun _ => True) (fun c => length c = length a));
      [|apply Forall_forall; auto|exact IH].
    intros x c _ Hc. cbn [length]. now rewrite Hc.
Qed.

(** [W.t().t()] is [W] again, for a rectangular [W] with at least one
    column. *)
Lemma t_involutive (n : nat) (W : tensor T) :
  0 < n -> Forall (fun r => length r = n) W -> t_ (t_ W) = W.
Proof.
  intros Hn HW. destruct W as [|r W]; [reflexivity|].
  pose proof (Forall_inv HW) as Hr. cbn beta in Hr.
  unfold t_ at 2. cbn [ncols]. rewrite Hr.
  unfold t_.
  pose proof (transpose_length n (r :: W) HW) as Hlen.
  pose proof (transpose_rows n (r :: W)) as Hrows.
  destruct (transpose n (r :: W)) as [|c cs] eqn:Et; [cbn in Hlen; lia|].
  cbn [ncols]. rewrite (Forall_inv Hrows). rewrite <- Et.
  now apply transpose_involutive.
Qed.

End Gram.

Lemma dot_self (r : list R) : dot r r = squared_norm r.
Proof. unfold dot, squared_norm. now rewrite vsumR, map2_diag. Qed.

Lemma gram_trace_R (L : tensor R) :
  trace (map (fun r => map (dot r) L) L) = sumR (map squared_norm L).
Proof.
  rewrite trace_gram. unfold sumR, zero. cbn [of_Z RScalar].
  induction L as [|r L IH]; cbn [fold_right map]; [reflexivity|].
  now rewrite IH, dot_self.
Qed.

Lemma sumR_squared_norms_nonneg (L : tensor R) :
  (0 <= sumR (map squared_norm L))%R.
Proof.
  apply sumR_nonneg, Forall_map, Forall_forall. intros r _.
  apply squared_norm_nonneg.
Qed.

(** X20.  [taa = trace(At.mm(A))] is the sum of the squared norms of the
    columns of [A] (the rows of [At]), hence never negative, for any [A]. *)
Theorem taa_of_sum_of_squares (A : tensor R) :
  taa_of A = sumR (map squared_norm (t_ A))
  /\ (0 <= taa_of A)%R.
Proof.
  assert (E : taa_of A = sumR (map squared_norm (t_ A))).
  { unfold taa_of, mm. apply (gram_trace_R (t_ A)). }
  split; [exact E|]. rewrite E. apply sumR_squared_norms_nonneg.
Qed.

(** X21.  [tww = trace(W.mm(Wt))] is the sum of the squares of all entries
    of [W], hence never negative, for a rectangular [W]. *)
Theorem tww_of_sum_of_squares (n : nat) (W : tensor R) :
  Forall (fun r => length r = n) W ->
  tww_of W = sumR (map squared_norm W)
  /\ (0 <= tww_of W)%R.
Proof.
  intros HW.
  assert (E : tww_of W = sumR (map squared_norm W)).
  { unfold tww_of, mm.
    destruct n as [|n].
    - (* no columns: both sides are 0 *)
      assert (Hz : sumR (map squared_norm W) = 0%R).
      { clear -HW. induction HW as [|r W Hr HW IH]; [reflexivity|].
        cbn [map]. unfold sumR in *. cbn [fold_right]. rewrite IH.
        destruct r; [|discriminate]. unfold squared_norm. cbn. ring. }
      rewrite Hz. destruct W as [|r W]; [reflexivity|].
      pose proof (Forall_inv HW) as Hr. cbn beta in Hr.
      destruct r; [|discriminate]. reflexivity.
    - change (transpose (ncols (t_ W)) (t_ W)) with (t_ (t_ W)).
      rewrite (t_involutive (S n) W) by (auto; lia).
      apply gram_trace_R. }
  split; [exact E|]. rewrite E. apply sumR_squared_norms_nonneg.
Qed.

Lemma tww_of_sum_of_squares_witness :
  tww_of Inputs2.W22 = sumR (map squared_norm Inputs2.W22).
Proof.
  apply (tww_of_sum_of_squares 2 Inputs2.W22).
  repeat constructor.
Defined.

(** The sizes-two constants are consistent: for the sensing matrix
    [A = [[1; 1]]] and its pseudo-inverse [W = [[1/2]; [1/2]]] the traces
    are the values [Inputs2.G22] carries. *)
Example traces_of_small_matrix :
  taa_of [[1; 1]]%R = taa Inputs2.G22
  /\ tww_of [[1 / 2]; [1 / 2]]%R = tww Inputs2.G22
  /\ t_ [[1; 1]]%R = At Inputs2.G22
  /\ t_ [[1 / 2]; [1 / 2]]%R = Wt Inputs2.G22.
Proof.
  repeat split.
  - transitivity (sumR (map squared_norm (t_ [[1; 1]]%R)));
      [apply (gram_trace_R (t_ [[1; 1]]%R))|].
    cbn. unfold squared_norm. cbn. lra.
  - transitivity (sumR (map squared_norm [[1 / 2]; [1 / 2]]%R));
      [apply (gram_trace_R [[1 / 2]; [1 / 2]]%R)|].
    cbn. unfold squared_norm. cbn. lra.
Qed.
